(** * OnyxChainStorage: the file registry and access-control ledger

    A shallow embedding of [contracts/OnyxChainStorage.sol] and the
    properties of its lifecycle, access-control and fee accounting.

    Conventions of the embedding:
    - [uint256] and [address] values are integers of [Z]; Solidity 0.8
      arithmetic is checked, so an operation that leaves the range
      [0, 2^256) fails with [Panic 0x11] instead of wrapping;
    - a [mapping(K => V)] is a finite map whose absent keys read as the zero
      value of [V]; a [mapping(address => bool)] is the finite set of the
      keys that map to [true];
    - a call either succeeds with a return value, a new state and the
      effects it produced (events and Ether sent), or fails and leaves
      nothing behind: the EVM rolls a reverted call back entirely. *)

From stdpp Require Import base gmap sets list strings sorting.
From Stdlib Require Import ZArith Lia.

Open Scope string_scope.
Open Scope list_scope.
Open Scope Z_scope.

(** ** Machine integers *)

Definition MAX_UINT256 : Z := 2 ^ 256 - 1.

(** ** Data model *)

Module File.
(** [struct File]; [sharedWith] is the set of addresses mapped to [true]. *)
Record t : Type := mk {
  id : Z;
  fileName : string;
  fileType : string;
  fileSize : Z;
  ipfsHash : string;
  description : string;
  owner : Z;
  uploadTimestamp : Z;
  isPublic : bool;
  isDeleted : bool;
  sharedWith : gset Z
}.

(** The value every slot of [files] holds before it is written. *)
Definition zero : t := mk 0 "" "" 0 "" "" 0 0 false false ∅.

Definition set_isDeleted (b : bool) (f : t) : t :=
  mk (id f) (fileName f) (fileType f) (fileSize f) (ipfsHash f)
     (description f) (owner f) (uploadTimestamp f) (isPublic f) b
     (sharedWith f).

Definition set_sharedWith (s : gset Z) (f : t) : t :=
  mk (id f) (fileName f) (fileType f) (fileSize f) (ipfsHash f)
     (description f) (owner f) (uploadTimestamp f) (isPublic f)
     (isDeleted f) s.
End File.

(** Contract storage, the inherited [Ownable] owner slot and the Ether
    balance held at the contract's address. *)
Record State : Type := mkState {
  storageFeePerByte : Z;
  fileIdCounter : Z;
  files : gmap Z File.t;
  userFiles : gmap Z (list Z);
  publicFiles : list Z;
  _owner : Z;
  balance : Z
}.

Definition with_storageFeePerByte (v : Z) (s : State) : State :=
  mkState v (fileIdCounter s) (files s) (userFiles s) (publicFiles s)
          (_owner s) (balance s).
Definition with_fileIdCounter (v : Z) (s : State) : State :=
  mkState (storageFeePerByte s) v (files s) (userFiles s) (publicFiles s)
          (_owner s) (balance s).
Definition with_files (v : gmap Z File.t) (s : State) : State :=
  mkState (storageFeePerByte s) (fileIdCounter s) v (userFiles s)
          (publicFiles s) (_owner s) (balance s).
Definition with_userFiles (v : gmap Z (list Z)) (s : State) : State :=
  mkState (storageFeePerByte s) (fileIdCounter s) (files s) v
          (publicFiles s) (_owner s) (balance s).
Definition with_publicFiles (v : list Z) (s : State) : State :=
  mkState (storageFeePerByte s) (fileIdCounter s) (files s) (userFiles s) v
          (_owner s) (balance s).
Definition with_owner (v : Z) (s : State) : State :=
  mkState (storageFeePerByte s) (fileIdCounter s) (files s) (userFiles s)
          (publicFiles s) v (balance s).
Definition with_balance (v : Z) (s : State) : State :=
  mkState (storageFeePerByte s) (fileIdCounter s) (files s) (userFiles s)
          (publicFiles s) (_owner s) v.

(** [files[fileId]] and [userFiles[user]] read as storage does: an unwritten
    slot is the zero struct, an unwritten array is empty. *)
Definition file_at (s : State) (fileId : Z) : File.t :=
  default File.zero (files s !! fileId).

Definition userFiles_at (s : State) (user : Z) : list Z :=
  default [] (userFiles s !! user).

(** ** Events, effects and failures *)

Inductive Event : Type :=
  | FileUploaded (fileId : Z) (fileName : string) (owner : Z) (ipfsHash : string)
  | FileDeleted (fileId : Z) (owner : Z)
  | FileShared (fileId : Z) (owner : Z) (sharedWith : Z)
  | AccessRevoked (fileId : Z) (owner : Z) (revokedFrom : Z)
  | StorageFeeUpdated (oldFee newFee : Z)
  | EtherWithdrawn (owner : Z) (amount : Z)
  | OwnershipTransferred (previousOwner newOwner : Z).

(** What a successful call leaves outside storage, in program order. *)
Inductive Effect : Type :=
  | Emit (e : Event)
  | Sent (recipient : Z) (amount : Z).

(** How a call fails: a [require] with its message, a compiler-inserted
    panic (0x11 arithmetic overflow, 0x32 index out of bounds), the custom
    errors of the imported [Ownable], or a [transfer] the recipient did not
    accept. *)
Inductive Failure : Type :=
  | Revert (reason : string)
  | Panic (code : Z)
  | OwnableUnauthorizedAccount (account : Z)
  | OwnableInvalidOwner (account : Z)
  | TransferFailed.

(** The part of the transaction and of the chain a call can observe.
    [accepts a] tells whether a plain [transfer] to [a] goes through. *)
Record Env : Type := mkEnv {
  msg_sender : Z;
  block_timestamp : Z;
  accepts : Z → bool
}.

(** ** The contract monad *)

Inductive Outcome (A : Type) : Type :=
  | Success (a : A) (s : State) (log : list Effect)
  | Failed (f : Failure).
Arguments Success {A} a s log.
Arguments Failed {A} f.

Definition Contract (A : Type) : Type := Env → State → Outcome A.

Definition ret {A} (a : A) : Contract A := λ _ s, Success a s [].

Definition bind {A B} (m : Contract A) (k : A → Contract B) : Contract B :=
  λ e s,
    match m e s with
    | Failed f => Failed f
    | Success a s1 l1 =>
        match k a e s1 with
        | Failed f => Failed f
        | Success b s2 l2 => Success b s2 (l1 ++ l2)
        end
    end.

#[global] Instance Contract_ret : MRet Contract := @ret.
#[global] Instance Contract_bind : MBind Contract := λ A B k m, bind m k.

Definition fail {A} (f : Failure) : Contract A := λ _ _, Failed f.
Definition read {A} (g : State → A) : Contract A := λ _ s, Success (g s) s [].
Definition modify (g : State → State) : Contract unit :=
  λ _ s, Success tt (g s) [].
Definition sender : Contract Z := λ e s, Success (msg_sender e) s [].
Definition timestamp : Contract Z := λ e s, Success (block_timestamp e) s [].
Definition emit (ev : Event) : Contract unit := λ _ s, Success tt s [Emit ev].

Definition require (cond : bool) (reason : string) : Contract unit :=
  if cond then ret tt else fail (Revert reason).

Definition when (cond : bool) (m : Contract unit) : Contract unit :=
  if cond then m else ret tt.

(** Checked [uint256] arithmetic. *)
Definition checked_mul (a b : Z) : Contract Z :=
  if a * b <=? MAX_UINT256 then ret (a * b) else fail (Panic 0x11).

Definition checked_incr (a : Z) : Contract Z :=
  if a + 1 <=? MAX_UINT256 then ret (a + 1) else fail (Panic 0x11).

(** A [payable] entry point is credited with [msg.value] before its body
    runs. *)
Definition payable (msg_value : Z) : Contract unit :=
  modify (λ s, with_balance (balance s + msg_value) s).

(** [payable(recipient).transfer(amount)]: reverts the whole call unless the
    balance covers [amount] and the recipient accepts it. *)
Definition transfer (recipient amount : Z) : Contract unit :=
  λ e s,
    if (amount <=? balance s) && accepts e recipient
    then Success tt (with_balance (balance s - amount) s) [Sent recipient amount]
    else Failed TransferFailed.

(** Storage writes. *)
Definition write_file (fileId : Z) (f : File.t) : Contract unit :=
  modify (λ s, with_files (<[fileId := f]> (files s)) s).

Definition update_file (fileId : Z) (g : File.t → File.t) : Contract unit :=
  modify (λ s, with_files (<[fileId := g (file_at s fileId)]> (files s)) s).

Definition push_userFiles (user fileId : Z) : Contract unit :=
  modify (λ s, with_userFiles
                 (<[user := userFiles_at s user ++ [fileId]]> (userFiles s)) s).

Definition push_publicFiles (fileId : Z) : Contract unit :=
  modify (λ s, with_publicFiles (publicFiles s ++ [fileId]) s).

(** ** Ownable

    The contract inherits OpenZeppelin's [Ownable], which it imports and
    constructs with [Ownable(msg.sender)]: an owner slot, the [onlyOwner]
    modifier and the two entry points that hand ownership over. *)

Definition owner : Contract Z := read _owner.

(** [modifier onlyOwner]. *)
Definition onlyOwner {A} (body : Contract A) : Contract A :=
  o ← owner;
  caller ← sender;
  if bool_decide (o = caller) then body
  else fail (OwnableUnauthorizedAccount caller).

Definition _transferOwnership (newOwner : Z) : Contract unit :=
  oldOwner ← owner;
  modify (with_owner newOwner);;
  emit (OwnershipTransferred oldOwner newOwner).

Definition transferOwnership (newOwner : Z) : Contract unit :=
  onlyOwner (
    if bool_decide (newOwner = 0) then fail (OwnableInvalidOwner 0)
    else _transferOwnership newOwner).

Definition renounceOwnership : Contract unit :=
  onlyOwner (_transferOwnership 0).

(** ** OnyxChainStorage *)

(** State right after [constructor() Ownable(msg.sender)]. *)
Definition constructor (deployer : Z) : State :=
  mkState 1000 0 ∅ ∅ [] deployer 0.

Definition calculateStorageFee (fileSize : Z) : Contract Z :=
  fee ← read storageFeePerByte;
  checked_mul fileSize fee.

(** [uploadFile] is [payable nonReentrant]. The guard of [nonReentrant] is
    open whenever a transaction enters the contract, because [transfer]
    is the only outbound call and it is taken here as one indivisible
    step; the guard therefore never fires and is left out. *)
Definition uploadFile (fileName fileType : string) (fileSize : Z)
    (ipfsHash description : string) (isPublic : bool) (msg_value : Z)
    : Contract Z :=
  payable msg_value;;
  storageFee ← calculateStorageFee fileSize;
  require (storageFee <=? msg_value)
          "Insufficient Ether sent to cover storage fees";;
  fileId ← read fileIdCounter;
  next ← checked_incr fileId;
  modify (with_fileIdCounter next);;
  caller ← sender;
  now ← timestamp;
  newFile ← read (λ s, file_at s fileId);
  write_file fileId
    (File.mk fileId fileName fileType fileSize ipfsHash description caller
             now isPublic false (File.sharedWith newFile));;
  push_userFiles caller fileId;;
  when isPublic (push_publicFiles fileId);;
  emit (FileUploaded fileId fileName caller ipfsHash);;
  when (storageFee <? msg_value) (transfer caller (msg_value - storageFee));;
  ret fileId.

(** The scan of [deleteFile] over [publicFiles]: at the first index that
    holds [fileId], overwrite it with the last element, pop, and stop.
    [fuel] bounds the iterations; the loop needs at most
    [length publicFiles] of them. *)
Fixpoint removePublic (fuel : nat) (i : nat) (fileId : Z) (pf : list Z)
    : list Z :=
  match fuel with
  | O => pf
  | S fuel' =>
      if bool_decide (i < length pf)%nat then
        if bool_decide (nth i pf 0 = fileId)
        then removelast (<[i := nth (length pf - 1) pf 0]> pf)
        else removePublic fuel' (S i) fileId pf
      else pf
  end.

Definition deleteFile (fileId : Z) : Contract unit :=
  counter ← read fileIdCounter;
  require (fileId <? counter) "File does not exist";;
  caller ← sender;
  f ← read (λ s, file_at s fileId);
  require (bool_decide (File.owner f = caller))
          "Only the owner can delete this file";;
  require (negb (File.isDeleted f)) "File already deleted";;
  update_file fileId (File.set_isDeleted true);;
  when (File.isPublic f)
    (modify (λ s, with_publicFiles
        (removePublic (length (publicFiles s)) 0 fileId (publicFiles s)) s));;
  emit (FileDeleted fileId caller).

Definition shareFile (fileId recipient : Z) : Contract unit :=
  counter ← read fileIdCounter;
  require (fileId <? counter) "File does not exist";;
  caller ← sender;
  f ← read (λ s, file_at s fileId);
  require (bool_decide (File.owner f = caller))
          "Only the owner can share this file";;
  require (negb (File.isDeleted f)) "Cannot share a deleted file";;
  require (negb (bool_decide (recipient = 0))) "Invalid recipient address";;
  require (negb (bool_decide (recipient = caller)))
          "Cannot share with yourself";;
  update_file fileId
    (λ f, File.set_sharedWith ({[recipient]} ∪ File.sharedWith f) f);;
  emit (FileShared fileId caller recipient).

Definition revokeAccess (fileId recipient : Z) : Contract unit :=
  counter ← read fileIdCounter;
  require (fileId <? counter) "File does not exist";;
  caller ← sender;
  f ← read (λ s, file_at s fileId);
  require (bool_decide (File.owner f = caller))
          "Only the owner can revoke access";;
  require (negb (File.isDeleted f)) "Cannot modify a deleted file";;
  update_file fileId
    (λ f, File.set_sharedWith (File.sharedWith f ∖ {[recipient]}) f);;
  emit (AccessRevoked fileId caller recipient).

(** The two passes of [getMyFiles] over the caller's list: count the
    entries that are not deleted, then copy them into a memory array of
    that size. A write past the end of a memory array panics with 0x32. *)
Fixpoint countActive (s : State) (myFiles : list Z) (activeCount : nat) : nat :=
  match myFiles with
  | [] => activeCount
  | fileId :: rest =>
      if negb (File.isDeleted (file_at s fileId))
      then countActive s rest (S activeCount)
      else countActive s rest activeCount
  end.

Fixpoint fillActive (s : State) (myFiles : list Z) (activeFiles : list Z)
    (index : nat) : Failure + list Z :=
  match myFiles with
  | [] => inr activeFiles
  | fileId :: rest =>
      if negb (File.isDeleted (file_at s fileId)) then
        if bool_decide (index < length activeFiles)%nat
        then fillActive s rest (<[index := fileId]> activeFiles) (S index)
        else inl (Panic 0x32)
      else fillActive s rest activeFiles index
  end.

Definition getMyFiles : Contract (list Z) :=
  caller ← sender;
  myFiles ← read (λ s, userFiles_at s caller);
  activeCount ← read (λ s, countActive s myFiles 0%nat);
  filled ← read (λ s, fillActive s myFiles (replicate activeCount 0) 0%nat);
  match filled with
  | inr activeFiles => ret activeFiles
  | inl f => fail f
  end.

(** The tuple [getFile] returns. *)
Record FileInfo : Type := mkFileInfo {
  info_id : Z;
  info_fileName : string;
  info_fileType : string;
  info_fileSize : Z;
  info_ipfsHash : string;
  info_description : string;
  info_owner : Z;
  info_uploadTimestamp : Z;
  info_isPublic : bool
}.

Definition getFile (fileId : Z) : Contract FileInfo :=
  counter ← read fileIdCounter;
  require (fileId <? counter) "File does not exist";;
  file ← read (λ s, file_at s fileId);
  require (negb (File.isDeleted file)) "File has been deleted";;
  caller ← sender;
  require (bool_decide (File.owner file = caller)
           || File.isPublic file
           || bool_decide (caller ∈ File.sharedWith file))
          "You do not have permission to access this file";;
  ret (mkFileInfo (File.id file) (File.fileName file) (File.fileType file)
         (File.fileSize file) (File.ipfsHash file) (File.description file)
         (File.owner file) (File.uploadTimestamp file) (File.isPublic file)).

Definition getPublicFiles : Contract (list Z) := read publicFiles.

Definition hasFileAccess (fileId user : Z) : Contract bool :=
  counter ← read fileIdCounter;
  require (fileId <? counter) "File does not exist";;
  file ← read (λ s, file_at s fileId);
  require (negb (File.isDeleted file)) "File has been deleted";;
  ret (bool_decide (File.owner file = user)
       || File.isPublic file
       || bool_decide (user ∈ File.sharedWith file)).

Definition updateStorageFee (newFeePerByte : Z) : Contract unit :=
  onlyOwner (
    oldFee ← read storageFeePerByte;
    modify (with_storageFeePerByte newFeePerByte);;
    emit (StorageFeeUpdated oldFee newFeePerByte)).

Definition withdrawFunds : Contract unit :=
  onlyOwner (
    amount ← read balance;
    require (0 <? amount) "No funds available to withdraw";;
    o ← owner;
    transfer o amount;;
    emit (EtherWithdrawn o amount)).

Definition getContractBalance : Contract Z :=
  onlyOwner (read balance).

(** ** Transactions *)

(** The state-changing entry points of the deployed contract. *)
Inductive Tx : Type :=
  | TxUploadFile (fileName fileType : string) (fileSize : Z)
      (ipfsHash description : string) (isPublic : bool) (msg_value : Z)
  | TxDeleteFile (fileId : Z)
  | TxShareFile (fileId recipient : Z)
  | TxRevokeAccess (fileId recipient : Z)
  | TxUpdateStorageFee (newFeePerByte : Z)
  | TxWithdrawFunds
  | TxTransferOwnership (newOwner : Z)
  | TxRenounceOwnership.

(** A transaction's return data: the new id for [uploadFile], nothing for
    the others. *)
Definition call (tx : Tx) : Contract (option Z) :=
  match tx with
  | TxUploadFile n t sz h d p v =>
      fileId ← uploadFile n t sz h d p v; ret (Some fileId)
  | TxDeleteFile i => deleteFile i;; ret None
  | TxShareFile i r => shareFile i r;; ret None
  | TxRevokeAccess i r => revokeAccess i r;; ret None
  | TxUpdateStorageFee n => updateStorageFee n;; ret None
  | TxWithdrawFunds => withdrawFunds;; ret None
  | TxTransferOwnership o => transferOwnership o;; ret None
  | TxRenounceOwnership => renounceOwnership;; ret None
  end.

(** The state a transaction leaves: the new one on success, the old one on
    failure. *)
Definition step (s : State) (c : Env * Tx) : State :=
  match call c.2 c.1 s with
  | Success _ s' _ => s'
  | Failed _ => s
  end.

Definition run (s : State) (cs : list (Env * Tx)) : State := foldl step s cs.

(** The (caller, id) pairs of the successful [uploadFile] calls of a
    sequence, in the order of the calls. *)
Fixpoint uploads (s : State) (cs : list (Env * Tx)) : list (Z * Z) :=
  match cs with
  | [] => []
  | c :: rest =>
      match call c.2 c.1 s with
      | Success (Some fileId) s' _ => (msg_sender c.1, fileId) :: uploads s' rest
      | Success None s' _ => uploads s' rest
      | Failed _ => uploads s rest
      end
  end.

(** The ids handed out by the successful [uploadFile] calls of a sequence,
    in the order of the calls. *)
Definition issued (s : State) (cs : list (Env * Tx)) : list Z :=
  (uploads s cs).*2.

(** The ids [user] was handed, oldest first. *)
Definition created_by (user : Z) (s : State) (cs : list (Env * Tx)) : list Z :=
  (filter (λ p, p.1 = user) (uploads s cs)).*2.

(** ** Derived notions used in the statements *)

(** What [getFile] returns for a record. *)
Definition info_of (f : File.t) : FileInfo :=
  mkFileInfo (File.id f) (File.fileName f) (File.fileType f)
    (File.fileSize f) (File.ipfsHash f) (File.description f)
    (File.owner f) (File.uploadTimestamp f) (File.isPublic f).

(** The access condition shared by [getFile] and [hasFileAccess]. *)
Definition may_read (f : File.t) (user : Z) : bool :=
  bool_decide (File.owner f = user) || File.isPublic f
  || bool_decide (user ∈ File.sharedWith f).

(** The record [uploadFile] stores. *)
Definition new_file (fileName fileType : string) (fileSize : Z)
    (ipfsHash description : string) (isPublic : bool) (env : Env) (s : State)
    : File.t :=
  File.mk (fileIdCounter s) fileName fileType fileSize ipfsHash description
    (msg_sender env) (block_timestamp env) isPublic false
    (File.sharedWith (file_at s (fileIdCounter s))).

(** Storage after the writes of a successful [uploadFile], holding
    [held] wei. *)
Definition uploaded (f : File.t) (held : Z) (s : State) : State :=
  mkState (storageFeePerByte s) (fileIdCounter s + 1)
    (<[fileIdCounter s := f]> (files s))
    (<[File.owner f := userFiles_at s (File.owner f) ++ [fileIdCounter s]]>
       (userFiles s))
    (if File.isPublic f then publicFiles s ++ [fileIdCounter s]
     else publicFiles s)
    (_owner s) held.

(** Storage after a successful [deleteFile]. *)
Definition deleted (fileId : Z) (s : State) : State :=
  mkState (storageFeePerByte s) (fileIdCounter s)
    (<[fileId := File.set_isDeleted true (file_at s fileId)]> (files s))
    (userFiles s)
    (if File.isPublic (file_at s fileId)
     then removePublic (length (publicFiles s)) 0 fileId (publicFiles s)
     else publicFiles s)
    (_owner s) (balance s).

(** Storage after [sharedWith] of [fileId] became [grants]. *)
Definition regranted (fileId : Z) (grants : gset Z) (s : State) : State :=
  with_files
    (<[fileId := File.set_sharedWith grants (file_at s fileId)]> (files s)) s.

(** The reading condition in the words of C1: the caller is the owner, or
    the record is public, or the caller is in the grants. *)
Definition authorized (f : File.t) (user : Z) : Prop :=
  File.owner f = user ∨ File.isPublic f = true ∨ user ∈ File.sharedWith f.

(** ** A concrete run

    The scenario of the specification: the deployer lowers the fee to 100
    wei per byte; a user registers two files of 1000 bytes, the first
    public and paid exactly, the second private and overpaid by 50000 wei;
    the first is then deleted and the second shared. *)
Module Scenario.
Definition admin : Z := 0xAD.
Definition alice : Z := 0xA1.
Definition bob : Z := 0xB0.

Definition as_ (who : Z) : Env := mkEnv who 1700000000 (λ _, true).

Definition deploy_and_price : list (Env * Tx) :=
  [(as_ admin, TxUpdateStorageFee 100)].
Definition two_uploads : list (Env * Tx) :=
  deploy_and_price ++
  [(as_ alice, TxUploadFile "a.txt" "text/plain" 1000 "QmA" "" true 100000);
   (as_ alice, TxUploadFile "b.txt" "text/plain" 1000 "QmB" "" false 150000)].
Definition then_delete : list (Env * Tx) :=
  two_uploads ++ [(as_ alice, TxDeleteFile 0)].
Definition then_share : list (Env * Tx) :=
  then_delete ++ [(as_ alice, TxShareFile 1 bob)].

Definition priced : State := run (constructor admin) deploy_and_price.
Definition stocked : State := run (constructor admin) two_uploads.
Definition pruned : State := run (constructor admin) then_delete.
Definition shared : State := run (constructor admin) then_share.
End Scenario.

(** A record that is not tombstoned. *)
Definition live (s : State) (fileId : Z) : Prop :=
  File.isDeleted (file_at s fileId) = false.

#[global] Instance live_dec s fileId : Decision (live s fileId).
Proof. unfold live. apply _. Defined.

(** ** State changes and invariants *)

(** The shapes a state can take after one transaction: unchanged (the
    call failed), a record added, a record tombstoned, a grant set
    replaced, or one of the scalar slots rewritten. *)
Inductive transition (s : State) : State → Prop :=
  | tr_none : transition s s
  | tr_upload f held :
      fileIdCounter s + 1 ≤ MAX_UINT256 →
      File.isDeleted f = false →
      transition s (uploaded f held s)
  | tr_delete fileId :
      fileId < fileIdCounter s →
      File.isDeleted (file_at s fileId) = false →
      transition s (deleted fileId s)
  | tr_regrant fileId grants :
      fileId < fileIdCounter s →
      File.isDeleted (file_at s fileId) = false →
      transition s (regranted fileId grants s)
  | tr_fee v : transition s (with_storageFeePerByte v s)
  | tr_owner v : transition s (with_owner v s)
  | tr_balance v : transition s (with_balance v s).

(** An id that was issued and whose record is deleted. *)
Definition tombstoned (s : State) (fileId : Z) : Prop :=
  fileId < fileIdCounter s ∧ File.isDeleted (file_at s fileId) = true.

(** Storage as the contract keeps it: slots at or above the counter are
    untouched, slots of issued ids are written, and the public index
    lists, without repetition, the records that are public and not
    deleted. *)
Record wf (s : State) : Prop := mk_wf {
  wf_fresh : ∀ i, fileIdCounter s ≤ i → files s !! i = None;
  wf_stored : ∀ i, 0 ≤ i < fileIdCounter s → is_Some (files s !! i);
  wf_nodup : NoDup (publicFiles s);
  wf_public : ∀ i, i ∈ publicFiles s ↔
    File.isPublic (file_at s i) = true ∧ File.isDeleted (file_at s i) = false
}.

(** ** One transaction, case by case *)

(** What a transaction sent by [msg_sender env] does to the state, with
    the conditions under which it does it: the call is rejected and the
    state stays, or the entry point applies its writes. *)
Inductive performs (s : State) (env : Env) : Tx → State → Prop :=
  | pf_rejected tx f :
      call tx env s = Failed f → performs s env tx s
  | pf_upload n t sz h d p v :
      sz * storageFeePerByte s ≤ v →
      fileIdCounter s + 1 ≤ MAX_UINT256 →
      performs s env (TxUploadFile n t sz h d p v)
        (uploaded (new_file n t sz h d p env s)
           (balance s + sz * storageFeePerByte s) s)
  | pf_delete fileId :
      fileId < fileIdCounter s →
      File.owner (file_at s fileId) = msg_sender env →
      File.isDeleted (file_at s fileId) = false →
      performs s env (TxDeleteFile fileId) (deleted fileId s)
  | pf_share fileId recipient :
      fileId < fileIdCounter s →
      File.owner (file_at s fileId) = msg_sender env →
      File.isDeleted (file_at s fileId) = false →
      recipient ≠ 0 → recipient ≠ msg_sender env →
      performs s env (TxShareFile fileId recipient)
        (regranted fileId
           ({[recipient]} ∪ File.sharedWith (file_at s fileId)) s)
  | pf_revoke fileId recipient :
      fileId < fileIdCounter s →
      File.owner (file_at s fileId) = msg_sender env →
      File.isDeleted (file_at s fileId) = false →
      performs s env (TxRevokeAccess fileId recipient)
        (regranted fileId
           (File.sharedWith (file_at s fileId) ∖ {[recipient]}) s)
  | pf_fee newFeePerByte :
      _owner s = msg_sender env →
      performs s env (TxUpdateStorageFee newFeePerByte)
        (with_storageFeePerByte newFeePerByte s)
  | pf_withdraw :
      _owner s = msg_sender env →
      0 < balance s →
      performs s env TxWithdrawFunds (with_balance 0 s)
  | pf_transfer newOwner :
      _owner s = msg_sender env →
      performs s env (TxTransferOwnership newOwner) (with_owner newOwner s)
  | pf_renounce :
      _owner s = msg_sender env →
      performs s env TxRenounceOwnership (with_owner 0 s).

(** ** Money in and money out *)

(** The wei a transaction carries: [msg.value] of [uploadFile], nothing
    for the entry points that are not payable. *)
Definition paid (tx : Tx) : Z :=
  match tx with
  | TxUploadFile _ _ _ _ _ _ msg_value => msg_value
  | _ => 0
  end.

(** The wei the effects of a call send out. *)
Fixpoint sent_total (log : list Effect) : Z :=
  match log with
  | [] => 0
  | Sent _ amount :: rest => amount + sent_total rest
  | Emit _ :: rest => sent_total rest
  end.



(** Transactions whose [uint256] arguments are not negative. *)
Definition nonneg_tx (tx : Tx) : Prop :=
  match tx with
  | TxUploadFile _ _ fileSize _ _ _ msg_value => 0 ≤ fileSize ∧ 0 ≤ msg_value
  | TxUpdateStorageFee newFeePerByte => 0 ≤ newFeePerByte
  | _ => True
  end.

(** ** Bookkeeping of ids *)

(** The counter is a [uint256]; every issued record carries its own id;
    each per-user list is strictly increasing and holds exactly the issued
    ids whose record that user owns. *)
Record wf_lists (s : State) : Prop := mk_wf_lists {
  wl_counter : 0 ≤ fileIdCounter s ≤ MAX_UINT256;
  wl_id : ∀ i, 0 ≤ i < fileIdCounter s → File.id (file_at s i) = i;
  wl_sorted : ∀ u, StronglySorted Z.lt (userFiles_at s u);
  wl_member : ∀ u i, i ∈ userFiles_at s u ↔
    0 ≤ i < fileIdCounter s ∧ File.owner (file_at s i) = u
}.

(** The transactions that can touch the record of [fileId]. *)
Definition targets (tx : Tx) (fileId : Z) : Prop :=
  match tx with
  | TxDeleteFile i | TxShareFile i _ | TxRevokeAccess i _ => i = fileId
  | _ => False
  end.

(** ** Equations of the entry points *)

Ltac unfold_contract :=
  cbv [mbind Contract_bind bind mret Contract_ret ret fail read modify sender
       timestamp emit require when checked_mul checked_incr payable
       write_file update_file push_userFiles push_publicFiles owner
       onlyOwner _transferOwnership calculateStorageFee].

Ltac case_cond :=
  match goal with
  | |- context [match ?c with true => _ | false => _ end] =>
      lazymatch type of c with bool => idtac end;
      lazymatch c with
      | context [match _ with true => _ | false => _ end] => fail
      | _ => destruct c eqn:?
      end
  end.

Ltac simpl_state :=
  cbn [storageFeePerByte fileIdCounter files userFiles publicFiles _owner
       balance with_storageFeePerByte with_fileIdCounter with_files
       with_userFiles with_publicFiles with_owner with_balance].

Ltac run_contract :=
  unfold_contract; cbv beta iota; simpl_state;
  repeat (case_cond; cbv beta iota; simpl_state).

Lemma calculateStorageFee_eq fileSize env s :
  calculateStorageFee fileSize env s =
    if fileSize * storageFeePerByte s <=? MAX_UINT256
    then Success (fileSize * storageFeePerByte s) s []
    else Failed (Panic 0x11).
Proof. run_contract; reflexivity. Qed.

Lemma uploadFile_eq n t sz h d p v env s :
  uploadFile n t sz h d p v env s =
    if sz * storageFeePerByte s <=? MAX_UINT256 then
      if sz * storageFeePerByte s <=? v then
        if fileIdCounter s + 1 <=? MAX_UINT256 then
          if sz * storageFeePerByte s <? v then
            if (v - sz * storageFeePerByte s <=? balance s + v)
               && accepts env (msg_sender env)
            then Success (fileIdCounter s)
                   (uploaded (new_file n t sz h d p env s)
                      (balance s + v - (v - sz * storageFeePerByte s)) s)
                   [Emit (FileUploaded (fileIdCounter s) n (msg_sender env) h);
                    Sent (msg_sender env) (v - sz * storageFeePerByte s)]
            else Failed TransferFailed
          else Success (fileIdCounter s)
                 (uploaded (new_file n t sz h d p env s) (balance s + v) s)
                 [Emit (FileUploaded (fileIdCounter s) n (msg_sender env) h)]
        else Failed (Panic 0x11)
      else Failed (Revert "Insufficient Ether sent to cover storage fees")
    else Failed (Panic 0x11).
Proof.
  unfold uploadFile, transfer. run_contract; try reflexivity.
Qed.

Lemma deleteFile_eq fileId env s :
  deleteFile fileId env s =
    if fileId <? fileIdCounter s then
      if bool_decide (File.owner (file_at s fileId) = msg_sender env) then
        if negb (File.isDeleted (file_at s fileId)) then
          Success tt (deleted fileId s)
            [Emit (FileDeleted fileId (msg_sender env))]
        else Failed (Revert "File already deleted")
      else Failed (Revert "Only the owner can delete this file")
    else Failed (Revert "File does not exist").
Proof. unfold deleteFile, deleted. run_contract; reflexivity. Qed.

Lemma shareFile_eq fileId recipient env s :
  shareFile fileId recipient env s =
    if fileId <? fileIdCounter s then
      if bool_decide (File.owner (file_at s fileId) = msg_sender env) then
        if negb (File.isDeleted (file_at s fileId)) then
          if negb (bool_decide (recipient = 0)) then
            if negb (bool_decide (recipient = msg_sender env)) then
              Success tt
                (regranted fileId
                   ({[recipient]} ∪ File.sharedWith (file_at s fileId)) s)
                [Emit (FileShared fileId (msg_sender env) recipient)]
            else Failed (Revert "Cannot share with yourself")
          else Failed (Revert "Invalid recipient address")
        else Failed (Revert "Cannot share a deleted file")
      else Failed (Revert "Only the owner can share this file")
    else Failed (Revert "File does not exist").
Proof. unfold shareFile, regranted. run_contract; reflexivity. Qed.

Lemma revokeAccess_eq fileId recipient env s :
  revokeAccess fileId recipient env s =
    if fileId <? fileIdCounter s then
      if bool_decide (File.owner (file_at s fileId) = msg_sender env) then
        if negb (File.isDeleted (file_at s fileId)) then
          Success tt
            (regranted fileId
               (File.sharedWith (file_at s fileId) ∖ {[recipient]}) s)
            [Emit (AccessRevoked fileId (msg_sender env) recipient)]
        else Failed (Revert "Cannot modify a deleted file")
      else Failed (Revert "Only the owner can revoke access")
    else Failed (Revert "File does not exist").
Proof. unfold revokeAccess, regranted. run_contract; reflexivity. Qed.

Lemma getFile_eq fileId env s :
  getFile fileId env s =
    if fileId <? fileIdCounter s then
      if negb (File.isDeleted (file_at s fileId)) then
        if may_read (file_at s fileId) (msg_sender env)
        then Success (info_of (file_at s fileId)) s []
        else Failed (Revert "You do not have permission to access this file")
      else Failed (Revert "File has been deleted")
    else Failed (Revert "File does not exist").
Proof. unfold getFile, may_read. run_contract; reflexivity. Qed.

Lemma hasFileAccess_eq fileId user env s :
  hasFileAccess fileId user env s =
    if fileId <? fileIdCounter s then
      if negb (File.isDeleted (file_at s fileId))
      then Success (may_read (file_at s fileId) user) s []
      else Failed (Revert "File has been deleted")
    else Failed (Revert "File does not exist").
Proof. unfold hasFileAccess, may_read. run_contract; reflexivity. Qed.

Lemma updateStorageFee_eq newFeePerByte env s :
  updateStorageFee newFeePerByte env s =
    if bool_decide (_owner s = msg_sender env)
    then Success tt (with_storageFeePerByte newFeePerByte s)
           [Emit (StorageFeeUpdated (storageFeePerByte s) newFeePerByte)]
    else Failed (OwnableUnauthorizedAccount (msg_sender env)).
Proof. unfold updateStorageFee. run_contract; reflexivity. Qed.

Lemma withdrawFunds_eq env s :
  withdrawFunds env s =
    if bool_decide (_owner s = msg_sender env) then
      if 0 <? balance s then
        if (balance s <=? balance s) && accepts env (_owner s)
        then Success tt (with_balance (balance s - balance s) s)
               [Sent (_owner s) (balance s);
                Emit (EtherWithdrawn (_owner s) (balance s))]
        else Failed TransferFailed
      else Failed (Revert "No funds available to withdraw")
    else Failed (OwnableUnauthorizedAccount (msg_sender env)).
Proof. unfold withdrawFunds, transfer. run_contract; reflexivity. Qed.

Lemma getContractBalance_eq env s :
  getContractBalance env s =
    if bool_decide (_owner s = msg_sender env)
    then Success (balance s) s []
    else Failed (OwnableUnauthorizedAccount (msg_sender env)).
Proof. unfold getContractBalance. run_contract; reflexivity. Qed.

Lemma transferOwnership_eq newOwner env s :
  transferOwnership newOwner env s =
    if bool_decide (_owner s = msg_sender env) then
      if bool_decide (newOwner = 0) then Failed (OwnableInvalidOwner 0)
      else Success tt (with_owner newOwner s)
             [Emit (OwnershipTransferred (_owner s) newOwner)]
    else Failed (OwnableUnauthorizedAccount (msg_sender env)).
Proof. unfold transferOwnership. run_contract; reflexivity. Qed.

Lemma renounceOwnership_eq env s :
  renounceOwnership env s =
    if bool_decide (_owner s = msg_sender env)
    then Success tt (with_owner 0 s) [Emit (OwnershipTransferred (_owner s) 0)]
    else Failed (OwnableUnauthorizedAccount (msg_sender env)).
Proof. unfold renounceOwnership. run_contract; reflexivity. Qed.

(** The scenario of the specification, run on the model: the exact
    payment is kept whole, the overpayment is refunded, the deleted file
    cannot be read, and bob reads file 1 only while it is shared with him. *)
Example scenario_outcomes :
  issued (constructor Scenario.admin) Scenario.then_share = [0; 1]
  ∧ balance Scenario.stocked = 200000
  ∧ getFile 0 (Scenario.as_ Scenario.alice) Scenario.pruned =
      Failed (Revert "File has been deleted")
  ∧ getFile 1 (Scenario.as_ Scenario.bob) Scenario.pruned =
      Failed (Revert "You do not have permission to access this file")
  ∧ hasFileAccess 1 Scenario.bob (Scenario.as_ Scenario.bob) Scenario.shared =
      Success true Scenario.shared []
  ∧ getFile 1 (Scenario.as_ Scenario.bob)
      (step Scenario.shared
         (Scenario.as_ Scenario.alice, TxRevokeAccess 1 Scenario.bob)) =
      Failed (Revert "You do not have permission to access this file").
Proof.
  split; [vm_compute; reflexivity|].
  split; [vm_compute; reflexivity|].
  split; [vm_compute; reflexivity|].
  split; [vm_compute; reflexivity|].
  split; [vm_compute; reflexivity|].
  vm_compute. reflexivity.
Qed.

(** ** Reading a record *)

Lemma may_read_authorized f user : may_read f user = true ↔ authorized f user.
Proof.
  unfold may_read, authorized.
  rewrite !orb_true_iff, !bool_decide_eq_true. tauto.
Qed.

(** C1. On an existing record that is not deleted, [getFile] succeeds
    exactly when the caller is the owner, or the record is public, or the
    caller is in [sharedWith]; it then returns the record's metadata and
    changes nothing. Every other caller gets the permission failure, and
    [hasFileAccess] answers the same question as a boolean. *)
Theorem getFile_access_closure (env : Env) (s : State) (fileId : Z) :
  fileId < fileIdCounter s →
  File.isDeleted (file_at s fileId) = false →
  ((∃ info, getFile fileId env s = Success info s []) ↔
     authorized (file_at s fileId) (msg_sender env))
  ∧ (authorized (file_at s fileId) (msg_sender env) →
     getFile fileId env s = Success (info_of (file_at s fileId)) s [])
  ∧ (¬ authorized (file_at s fileId) (msg_sender env) →
     getFile fileId env s =
       Failed (Revert "You do not have permission to access this file"))
  ∧ (∀ env', hasFileAccess fileId (msg_sender env) env' s =
       Success (bool_decide (authorized (file_at s fileId) (msg_sender env)))
         s []).
Proof.
  intros Hlt Hlive.
  apply Z.ltb_lt in Hlt.
  rewrite getFile_eq, Hlt, Hlive. cbn [negb].
  destruct (may_read (file_at s fileId) (msg_sender env)) eqn:Hr.
  - apply may_read_authorized in Hr as Ha.
    repeat split; eauto; try tauto.
    intros env'. rewrite hasFileAccess_eq, Hlt, Hlive, Hr. cbn [negb].
    by rewrite bool_decide_eq_true_2.
  - assert (¬ authorized (file_at s fileId) (msg_sender env)) as Hn.
    { rewrite <- may_read_authorized, Hr. discriminate. }
    repeat split; try tauto.
    + intros [info Hinfo]. discriminate.
    + intros env'. rewrite hasFileAccess_eq, Hlt, Hlive, Hr. cbn [negb].
      by rewrite bool_decide_eq_false_2.
Qed.

(** In the scenario, bob reads the file shared with him. *)
Lemma getFile_access_closure_witness :
  getFile 1 (Scenario.as_ Scenario.bob) Scenario.shared =
    Success (info_of (file_at Scenario.shared 1)) Scenario.shared [].
Proof.
  refine (proj1 (proj2 (getFile_access_closure
            (Scenario.as_ Scenario.bob) Scenario.shared 1 _ _)) _).
  - vm_compute. reflexivity.
  - vm_compute. reflexivity.
  - right. right. vm_compute. reflexivity.
Defined.

(** ** Fees *)

Lemma step_failed s env tx f : call tx env s = Failed f → step s (env, tx) = s.
Proof. unfold step. cbn [fst snd]. by intros ->. Qed.

Lemma call_upload_failed n t sz h d p v env s f :
  uploadFile n t sz h d p v env s = Failed f →
  call (TxUploadFile n t sz h d p v) env s = Failed f.
Proof. cbn [call]. unfold_contract. by intros ->. Qed.

(** C2. Let [fee] be what the contract computes for the size. An
    [uploadFile] paying [fee + extra] with [extra >= 0] succeeds (the id
    counter has room, the caller takes the refund), sends exactly [extra]
    back to the caller, nothing when [extra = 0], and keeps exactly [fee].
    One paying less than [fee] fails with the insufficient-payment reason
    and the state after the transaction is the state before it. When the
    caller does not take a refund that is due, the whole call fails and
    nothing is kept. *)
Theorem uploadFile_fee_conservation
    (n t : string) (sz : Z) (h d : string) (p : bool) (v : Z)
    (env : Env) (s : State) (fee : Z) :
  calculateStorageFee sz env s = Success fee s [] →
  0 ≤ sz → 0 ≤ storageFeePerByte s → 0 ≤ balance s →
  fee = sz * storageFeePerByte s
  ∧ (∀ extra, 0 ≤ extra → v = fee + extra →
       fileIdCounter s + 1 ≤ MAX_UINT256 →
       (0 < extra → accepts env (msg_sender env) = true) →
       ∃ s', uploadFile n t sz h d p v env s =
               Success (fileIdCounter s) s'
                 (Emit (FileUploaded (fileIdCounter s) n (msg_sender env) h)
                  :: if 0 <? extra then [Sent (msg_sender env) extra] else [])
             ∧ balance s' = balance s + fee)
  ∧ (v < fee →
       uploadFile n t sz h d p v env s =
         Failed (Revert "Insufficient Ether sent to cover storage fees")
       ∧ step s (env, TxUploadFile n t sz h d p v) = s)
  ∧ (fee < v → fileIdCounter s + 1 ≤ MAX_UINT256 →
       accepts env (msg_sender env) = false →
       uploadFile n t sz h d p v env s = Failed TransferFailed
       ∧ step s (env, TxUploadFile n t sz h d p v) = s).
Proof.
  rewrite calculateStorageFee_eq.
  destruct (sz * storageFeePerByte s <=? MAX_UINT256) eqn:Hfit; [|discriminate].
  intros [= <-] Hsz Hrate Hbal.
  split; [reflexivity|]. split; [|split].
  - intros extra Hextra -> Hroom Hacc.
    assert (0 ≤ sz * storageFeePerByte s) as Hfee by nia.
    rewrite uploadFile_eq, Hfit.
    replace (sz * storageFeePerByte s <=? sz * storageFeePerByte s + extra)
      with true by (symmetry; apply Z.leb_le; lia).
    rewrite (proj2 (Z.leb_le _ _) Hroom).
    destruct (0 <? extra) eqn:Hpos.
    + apply Z.ltb_lt in Hpos.
      replace (sz * storageFeePerByte s <? sz * storageFeePerByte s + extra)
        with true by (symmetry; apply Z.ltb_lt; lia).
      rewrite Hacc by done.
      replace (sz * storageFeePerByte s + extra - sz * storageFeePerByte s
               <=? balance s + (sz * storageFeePerByte s + extra))
        with true by (symmetry; apply Z.leb_le; lia).
      cbn [andb].
      replace (sz * storageFeePerByte s + extra - sz * storageFeePerByte s)
        with extra by lia.
      eexists. split; [reflexivity|]. cbn [uploaded balance]. lia.
    + apply Z.ltb_ge in Hpos.
      replace (sz * storageFeePerByte s <? sz * storageFeePerByte s + extra)
        with false by (symmetry; apply Z.ltb_ge; lia).
      eexists. split; [reflexivity|]. cbn [uploaded balance]. lia.
  - intros Hlow.
    assert (uploadFile n t sz h d p v env s =
            Failed (Revert "Insufficient Ether sent to cover storage fees")) as E.
    { rewrite uploadFile_eq, Hfit. by rewrite (proj2 (Z.leb_gt _ _)) by lia. }
    split; [exact E|].
    eapply step_failed, call_upload_failed, E.
  - intros Hhigh Hroom Hacc.
    assert (uploadFile n t sz h d p v env s = Failed TransferFailed) as E.
    { rewrite uploadFile_eq, Hfit, Hacc, andb_false_r.
      rewrite (proj2 (Z.leb_le _ _)) by lia.
      rewrite (proj2 (Z.leb_le _ _) Hroom).
      by rewrite (proj2 (Z.ltb_lt _ _) Hhigh). }
    split; [exact E|].
    eapply step_failed, call_upload_failed, E.
Qed.

(** In the scenario, the second upload pays 150000 for a fee of 100000:
    50000 go back and the balance grows by the fee. *)
Lemma uploadFile_fee_conservation_witness :
  ∃ s', uploadFile "b.txt" "text/plain" 1000 "QmB" "" false 150000
          (Scenario.as_ Scenario.alice) Scenario.priced =
          Success 0 s'
            [Emit (FileUploaded 0 "b.txt" Scenario.alice "QmB");
             Sent Scenario.alice 50000]
        ∧ balance s' = balance Scenario.priced + 100000.
Proof.
  refine (proj1 (proj2 (uploadFile_fee_conservation
            "b.txt" "text/plain" 1000 "QmB" "" false 150000
            (Scenario.as_ Scenario.alice) Scenario.priced 100000 _ _ _ _))
          50000 _ _ _ _).
  - vm_compute. reflexivity.
  - lia.
  - vm_compute. discriminate.
  - vm_compute. discriminate.
  - lia.
  - reflexivity.
  - vm_compute. discriminate.
  - reflexivity.
Defined.

(** ** Administration *)

(** C9. [updateStorageFee] succeeds exactly for the owner of the contract
    and fails for every other caller with the unauthorized-account error.
    Whatever its outcome, the transaction leaves records, per-user lists,
    public index, id counter, owner and balance as they were; on success
    the rate is the new one and the next fee computation uses it. *)
Theorem updateStorageFee_frame (newFeePerByte : Z) (env : Env) (s : State) :
  (msg_sender env = _owner s →
     updateStorageFee newFeePerByte env s =
       Success tt (with_storageFeePerByte newFeePerByte s)
         [Emit (StorageFeeUpdated (storageFeePerByte s) newFeePerByte)]
     ∧ storageFeePerByte (step s (env, TxUpdateStorageFee newFeePerByte))
       = newFeePerByte
     ∧ ∀ sz env', sz * newFeePerByte ≤ MAX_UINT256 →
         calculateStorageFee sz env'
           (step s (env, TxUpdateStorageFee newFeePerByte))
         = Success (sz * newFeePerByte)
             (step s (env, TxUpdateStorageFee newFeePerByte)) [])
  ∧ (msg_sender env ≠ _owner s →
     updateStorageFee newFeePerByte env s =
       Failed (OwnableUnauthorizedAccount (msg_sender env))
     ∧ step s (env, TxUpdateStorageFee newFeePerByte) = s)
  ∧ files (step s (env, TxUpdateStorageFee newFeePerByte)) = files s
  ∧ userFiles (step s (env, TxUpdateStorageFee newFeePerByte)) = userFiles s
  ∧ publicFiles (step s (env, TxUpdateStorageFee newFeePerByte)) = publicFiles s
  ∧ fileIdCounter (step s (env, TxUpdateStorageFee newFeePerByte))
    = fileIdCounter s
  ∧ _owner (step s (env, TxUpdateStorageFee newFeePerByte)) = _owner s
  ∧ balance (step s (env, TxUpdateStorageFee newFeePerByte)) = balance s.
Proof.
  assert (step s (env, TxUpdateStorageFee newFeePerByte) =
          if bool_decide (_owner s = msg_sender env)
          then with_storageFeePerByte newFeePerByte s else s) as Hstep.
  { unfold step. cbn [fst snd call]. unfold_contract.
    rewrite updateStorageFee_eq. by case_bool_decide. }
  rewrite Hstep, updateStorageFee_eq.
  case_bool_decide as Hown.
  - repeat split; try congruence.
    intros sz env' Hfit. rewrite calculateStorageFee_eq.
    cbn [with_storageFeePerByte storageFeePerByte].
    by rewrite (proj2 (Z.leb_le _ _) Hfit).
  - repeat split; congruence.
Qed.

(** The deployer sets the rate of the scenario; alice may not. *)
Lemma updateStorageFee_frame_witness :
  updateStorageFee 100 (Scenario.as_ Scenario.alice)
    (constructor Scenario.admin) =
    Failed (OwnableUnauthorizedAccount Scenario.alice)
  ∧ step (constructor Scenario.admin)
      (Scenario.as_ Scenario.alice, TxUpdateStorageFee 100)
    = constructor Scenario.admin.
Proof.
  refine (proj1 (proj2 (updateStorageFee_frame 100
            (Scenario.as_ Scenario.alice) (constructor Scenario.admin))) _).
  vm_compute. discriminate.
Defined.

(** C10. [withdrawFunds] is refused to every caller but the owner; for the
    owner it fails when the balance is zero, and otherwise, the owner
    accepting the payment, sends the whole balance to the owner in that one
    call and leaves the contract with none. What [uploadFile] retained is
    therefore part of what the owner can take out. [getContractBalance]
    reports the balance, to the owner only. *)
Theorem withdrawFunds_drains (env : Env) (s : State) :
  (msg_sender env ≠ _owner s →
     withdrawFunds env s = Failed (OwnableUnauthorizedAccount (msg_sender env))
     ∧ getContractBalance env s =
         Failed (OwnableUnauthorizedAccount (msg_sender env)))
  ∧ (msg_sender env = _owner s →
     getContractBalance env s = Success (balance s) s []
     ∧ (balance s = 0 →
          withdrawFunds env s =
            Failed (Revert "No funds available to withdraw"))
     ∧ (0 < balance s → accepts env (_owner s) = true →
          withdrawFunds env s =
            Success tt (with_balance 0 s)
              [Sent (_owner s) (balance s);
               Emit (EtherWithdrawn (_owner s) (balance s))])
     ∧ (0 < balance s → accepts env (_owner s) = false →
          withdrawFunds env s = Failed TransferFailed)).
Proof.
  rewrite withdrawFunds_eq, getContractBalance_eq.
  case_bool_decide as Hown.
  - split; [congruence|]. intros _. split; [reflexivity|]. repeat split.
    + intros ->. reflexivity.
    + intros Hpos ->. rewrite (proj2 (Z.ltb_lt _ _) Hpos), Z.leb_refl.
      cbn [andb]. by rewrite Z.sub_diag.
    + intros Hpos ->. rewrite (proj2 (Z.ltb_lt _ _) Hpos), Z.leb_refl.
      reflexivity.
  - split; [done|congruence].
Qed.

(** In the scenario the two retained fees, 200000 wei, leave in one call. *)
Lemma withdrawFunds_drains_witness :
  withdrawFunds (Scenario.as_ Scenario.admin) Scenario.stocked =
    Success tt (with_balance 0 Scenario.stocked)
      [Sent Scenario.admin 200000;
       Emit (EtherWithdrawn Scenario.admin 200000)].
Proof.
  refine (proj1 (proj2 (proj2 (proj2 (withdrawFunds_drains
            (Scenario.as_ Scenario.admin) Scenario.stocked) _))) _ _).
  - reflexivity.
  - vm_compute. reflexivity.
  - reflexivity.
Defined.

(** ** The public index: swap-with-last removal *)

Section RemovePublic.
Variable fileId : Z.

(** Overwriting slot [i] with the last element and popping yields, up to
    order, the list without its [i]-th element. *)
Lemma swap_pop_perm (pf : list Z) (i : nat) :
  (i < length pf)%nat →
  nth i pf 0 :: removelast (<[i := nth (length pf - 1) pf 0]> pf) ≡ₚ pf.
Proof.
  intros Hi.
  destruct (exists_last (l := pf)) as (q & z & ->).
  { intros ->. cbn in Hi. lia. }
  rewrite length_app in *. cbn [length] in *.
  replace (length q + 1 - 1)%nat with (length q + 0)%nat by lia.
  rewrite (app_nth2_plus q [z] 0 0). cbn [nth].
  destruct (decide (i = length q)) as [->|Hne].
  - rewrite (nth_lookup_Some _ _ _ z) by apply list_lookup_middle, eq_refl.
    rewrite insert_app_r_alt, Nat.sub_diag by lia. cbn.
    rewrite removelast_last. apply Permutation_cons_append.
  - assert (i < length q)%nat as Hq by lia.
    rewrite insert_app_l, removelast_last by done.
    destruct (lookup_lt_is_Some_2 q i Hq) as [y Hy].
    rewrite (nth_lookup_Some _ _ _ y) by (by apply lookup_app_l_Some).
    rewrite <- (take_drop_middle q i y Hy) at 2.
    rewrite insert_take_drop by done.
    rewrite <- app_assoc. cbn [app].
    rewrite <- !Permutation_middle. f_equiv.
    by rewrite app_nil_r.
Qed.

Lemma removePublic_scan (fuel : nat) :
  ∀ (i : nat) (pf : list Z),
    (length pf ≤ i + fuel)%nat →
    fileId ∉ take i pf →
    (fileId ∈ pf → fileId :: removePublic fuel i fileId pf ≡ₚ pf)
    ∧ (fileId ∉ pf → removePublic fuel i fileId pf = pf).
Proof.
  induction fuel as [|fuel IH]; intros i pf Hlen Hpre.
  - rewrite take_ge in Hpre by lia. cbn. tauto.
  - cbn [removePublic]. case_bool_decide as Hi.
    + case_bool_decide as Hx.
      * split.
        -- intros _. rewrite <- Hx at 1. by apply swap_pop_perm.
        -- intros Hnot. exfalso. apply Hnot. rewrite <- Hx.
           destruct (lookup_lt_is_Some_2 pf i Hi) as [y Hy].
           rewrite (nth_lookup_Some _ _ _ y Hy).
           by eapply list_elem_of_lookup_2.
      * apply IH; [lia|].
        destruct (lookup_lt_is_Some_2 pf i Hi) as [y Hy].
        rewrite (take_S_r _ _ y Hy), not_elem_of_app.
        split; [done|]. rewrite (nth_lookup_Some _ _ _ y Hy) in Hx.
        rewrite list_elem_of_singleton. congruence.
    + rewrite take_ge in Hpre by lia. tauto.
Qed.

(** The loop of [deleteFile], started at index 0 with the length of the
    list as fuel, removes [fileId] from a duplicate-free index and keeps
    everything else. *)
Lemma removePublic_spec (pf : list Z) :
  NoDup pf →
  NoDup (removePublic (length pf) 0 fileId pf)
  ∧ ∀ i, i ∈ removePublic (length pf) 0 fileId pf ↔ i ∈ pf ∧ i ≠ fileId.
Proof.
  intros Hnd.
  destruct (removePublic_scan (length pf) 0 pf) as [Hin Hout].
  { lia. } { cbn. apply not_elem_of_nil. }
  destruct (decide (fileId ∈ pf)) as [Hx|Hx].
  - specialize (Hin Hx).
    assert (NoDup (fileId :: removePublic (length pf) 0 fileId pf)) as Hnd'
      by (by rewrite Hin).
    assert (∀ i, i ∈ fileId :: removePublic (length pf) 0 fileId pf ↔ i ∈ pf)
      as Hmem by (intros i; by rewrite Hin).
    apply NoDup_cons in Hnd' as [Hfresh Hnd'].
    split; [done|]. intros i. rewrite <- Hmem, elem_of_cons. split.
    + intros Hi. split; [by right|]. congruence.
    + intros [[?|?] ?]; done.
  - rewrite (Hout Hx). split; [done|]. intros i. split.
    + intros Hi. split; [done|]. congruence.
    + tauto.
Qed.
End RemovePublic.

(** ** What a transaction can do to the state *)

Ltac run_call :=
  cbn [call]; unfold_contract;
  rewrite ?uploadFile_eq, ?deleteFile_eq, ?shareFile_eq, ?revokeAccess_eq,
    ?updateStorageFee_eq, ?withdrawFunds_eq, ?transferOwnership_eq,
    ?renounceOwnership_eq;
  cbv beta iota; repeat (case_cond; cbv beta iota).

Lemma call_transition tx env s r s' l :
  call tx env s = Success r s' l → transition s s'.
Proof.
  destruct tx; run_call; intros ?; simplify_eq;
    try (constructor; done).
  - constructor; [by apply Z.leb_le|done].
  - constructor; [by apply Z.leb_le|done].
  - constructor; [by apply Z.ltb_lt|by apply negb_true_iff].
  - constructor; [by apply Z.ltb_lt|by apply negb_true_iff].
  - constructor; [by apply Z.ltb_lt|by apply negb_true_iff].
Qed.

Lemma step_transition s c : transition s (step s c).
Proof.
  unfold step. destruct (call c.2 c.1 s) eqn:E.
  - by eapply call_transition.
  - constructor.
Qed.

(** A call that returns an id returns the counter and stores a record
    owned by the caller; any other successful call leaves the counter and
    the per-user lists alone. *)
Lemma call_issue tx env s i s' l :
  call tx env s = Success (Some i) s' l →
  i = fileIdCounter s
  ∧ ∃ f held, File.owner f = msg_sender env ∧ s' = uploaded f held s.
Proof.
  destruct tx; run_call; intros ?; simplify_eq;
    (split; [done|]; eexists _, _; split; [|reflexivity]; done).
Qed.

Lemma call_quiet tx env s s' l :
  call tx env s = Success None s' l →
  fileIdCounter s' = fileIdCounter s ∧ userFiles s' = userFiles s.
Proof. destruct tx; run_call; intros ?; by simplify_eq. Qed.

(** Reads after writes. *)
Lemma file_at_uploaded f held s i :
  file_at (uploaded f held s) i =
    if decide (i = fileIdCounter s) then f else file_at s i.
Proof.
  unfold file_at, uploaded. cbn [files].
  case_decide as E; [subst; by rewrite lookup_insert_eq|].
  by rewrite lookup_insert_ne.
Qed.

Lemma file_at_deleted j s i :
  file_at (deleted j s) i =
    if decide (i = j) then File.set_isDeleted true (file_at s j)
    else file_at s i.
Proof.
  unfold file_at at 1, deleted. cbn [files].
  case_decide as E; [subst; by rewrite lookup_insert_eq|].
  by rewrite lookup_insert_ne.
Qed.

Lemma file_at_regranted j g s i :
  file_at (regranted j g s) i =
    if decide (i = j) then File.set_sharedWith g (file_at s j)
    else file_at s i.
Proof.
  unfold file_at at 1, regranted. cbn [files with_files].
  case_decide as E; [subst; by rewrite lookup_insert_eq|].
  by rewrite lookup_insert_ne.
Qed.

Lemma userFiles_at_uploaded f held s u :
  userFiles_at (uploaded f held s) u =
    if decide (File.owner f = u) then userFiles_at s u ++ [fileIdCounter s]
    else userFiles_at s u.
Proof.
  unfold userFiles_at at 1, uploaded. cbn [userFiles].
  case_decide as E; [subst; by rewrite lookup_insert_eq|].
  by rewrite lookup_insert_ne.
Qed.

(** ** Tombstones *)


Lemma tombstoned_transition s s' fileId :
  transition s s' → tombstoned s fileId → tombstoned s' fileId.
Proof.
  intros Htr [Hlt Hdel]. destruct Htr; unfold tombstoned; try done.
  - rewrite file_at_uploaded. cbn [uploaded fileIdCounter].
    case_decide; [lia|]. split; [lia|done].
  - rewrite file_at_deleted. cbn [deleted fileIdCounter].
    case_decide; [subst; congruence|done].
  - rewrite file_at_regranted.
    case_decide; [subst; congruence|done].
Qed.

Lemma tombstoned_run cs : ∀ s fileId,
  tombstoned s fileId → tombstoned (run s cs) fileId.
Proof.
  induction cs as [|c cs IH]; intros s fileId H; [done|].
  apply IH. eapply tombstoned_transition; [apply step_transition|done].
Qed.

(** ** Well-formed storage *)


Lemma wf_constructor deployer : wf (constructor deployer).
Proof.
  split; cbn.
  - intros. apply lookup_empty.
  - intros. lia.
  - constructor.
  - intros i. unfold file_at. cbn. rewrite lookup_empty. cbn.
    rewrite elem_of_nil. split; [done|]. by intros [].
Qed.

Lemma wf_transition s s' : wf s → transition s s' → wf s'.
Proof.
  intros [Hfresh Hstored Hnd Hpub] Htr. destruct Htr; try (by split).
  - assert (fileIdCounter s ∉ publicFiles s) as Hnew.
    { rewrite Hpub. unfold file_at. rewrite Hfresh by lia. cbn. by intros []. }
    split; cbn [uploaded fileIdCounter files publicFiles].
    + intros i Hi. rewrite lookup_insert_ne by lia. apply Hfresh. lia.
    + intros i Hi. destruct (decide (i = fileIdCounter s)) as [->|Hne].
      * rewrite lookup_insert_eq. by eexists.
      * rewrite lookup_insert_ne by done. apply Hstored. lia.
    + destruct (File.isPublic f); [|done].
      apply NoDup_app. split; [done|]. split; [|apply NoDup_singleton].
      intros x Hx. rewrite list_elem_of_singleton. by intros ->.
    + intros i. rewrite file_at_uploaded.
      case_decide as E.
      * subst i. destruct (File.isPublic f) eqn:Hp.
        -- rewrite elem_of_app, list_elem_of_singleton. tauto.
        -- split; [done|]. by intros [].
      * rewrite <- Hpub. destruct (File.isPublic f); [|done].
        rewrite elem_of_app, list_elem_of_singleton. tauto.
  - destruct (removePublic_spec fileId (publicFiles s) Hnd) as [Hnd' Hmem].
    split; cbn [deleted fileIdCounter files publicFiles].
    + intros i Hi. rewrite lookup_insert_ne by lia. by apply Hfresh.
    + intros i Hi. destruct (decide (i = fileId)) as [->|Hne].
      * rewrite lookup_insert_eq. by eexists.
      * rewrite lookup_insert_ne by done. by apply Hstored.
    + by destruct (File.isPublic (file_at s fileId)).
    + intros i. rewrite file_at_deleted. case_decide as E.
      * subst i. cbn. destruct (File.isPublic (file_at s fileId)) eqn:Hp.
        -- rewrite Hmem. split; [by intros []|by intros []].
        -- rewrite Hpub, Hp. split; by intros [].
      * destruct (File.isPublic (file_at s fileId)) eqn:Hp.
        -- rewrite Hmem, Hpub. tauto.
        -- apply Hpub.
  - split; cbn [regranted with_files fileIdCounter files publicFiles].
    + intros i Hi. rewrite lookup_insert_ne by lia. by apply Hfresh.
    + intros i Hi. destruct (decide (i = fileId)) as [->|Hne].
      * rewrite lookup_insert_eq. by eexists.
      * rewrite lookup_insert_ne by done. by apply Hstored.
    + done.
    + intros i. rewrite file_at_regranted. case_decide as E.
      * subst i. cbn. apply Hpub.
      * apply Hpub.
Qed.

Lemma wf_run cs : ∀ s, wf s → wf (run s cs).
Proof.
  induction cs as [|c cs IH]; intros s H; [done|].
  apply IH. eapply wf_transition; [done|apply step_transition].
Qed.

(** ** Successful calls, inverted *)

Lemma uploadFile_success n t sz h d p v env s i s' l :
  uploadFile n t sz h d p v env s = Success i s' l →
  i = fileIdCounter s
  ∧ fileIdCounter s + 1 ≤ MAX_UINT256
  ∧ ∃ held, s' = uploaded (new_file n t sz h d p env s) held s.
Proof.
  rewrite uploadFile_eq. repeat (case_cond; cbv beta iota);
    intros ?; simplify_eq; (split; [done|]; split; [by apply Z.leb_le|]);
    by eexists.
Qed.

Lemma deleteFile_success fileId env s u s' l :
  deleteFile fileId env s = Success u s' l →
  s' = deleted fileId s
  ∧ fileId < fileIdCounter s
  ∧ File.owner (file_at s fileId) = msg_sender env
  ∧ File.isDeleted (file_at s fileId) = false.
Proof.
  rewrite deleteFile_eq. repeat (case_cond; cbv beta iota);
    intros ?; simplify_eq.
  split; [done|]. split; [by apply Z.ltb_lt|].
  split; [by eapply bool_decide_eq_true_1|by apply negb_true_iff].
Qed.

Lemma upload_call_transition n t sz h d p v env s i s' l :
  uploadFile n t sz h d p v env s = Success i s' l → transition s s'.
Proof.
  intros H. apply (call_transition (TxUploadFile n t sz h d p v) env s (Some i) s' l).
  cbn [call]. unfold_contract. rewrite H. by rewrite app_nil_r.
Qed.

Lemma delete_call_transition fileId env s u s' l :
  deleteFile fileId env s = Success u s' l → transition s s'.
Proof.
  intros H. apply (call_transition (TxDeleteFile fileId) env s None s' l).
  cbn [call]. unfold_contract. rewrite H. by rewrite app_nil_r.
Qed.

(** ** The public index *)

(** C3. In every state the contract reaches from deployment,
    [getPublicFiles] returns the stored index, the index has no duplicate,
    and an id is in it exactly when its record is public and not deleted.
    A successful public [uploadFile] puts its new id in; a successful
    [deleteFile] leaves the id out. *)
Theorem public_index_consistency
    (deployer : Z) (cs : list (Env * Tx)) (env : Env) :
  let s := run (constructor deployer) cs in
  getPublicFiles env s = Success (publicFiles s) s []
  ∧ NoDup (publicFiles s)
  ∧ (∀ i, i ∈ publicFiles s ↔
       File.isPublic (file_at s i) = true
       ∧ File.isDeleted (file_at s i) = false)
  ∧ (∀ e n t sz h d v i s' l,
       uploadFile n t sz h d true v e s = Success i s' l →
       (i ∉ publicFiles s) ∧ i ∈ publicFiles s')
  ∧ (∀ e i u s' l,
       deleteFile i e s = Success u s' l → i ∉ publicFiles s').
Proof.
  intros s.
  assert (wf s) as Hwf by (apply wf_run, wf_constructor).
  split; [reflexivity|]. split; [apply Hwf|]. split; [apply Hwf|]. split.
  - intros e n t sz h d v i s' l Hup.
    assert (wf s') as Hwf'
      by (eapply wf_transition, upload_call_transition; done).
    apply uploadFile_success in Hup as (-> & _ & held & ->).
    split.
    + rewrite (wf_public _ Hwf). unfold file_at.
      rewrite (wf_fresh _ Hwf) by lia. cbn. by intros [].
    + rewrite (wf_public _ Hwf'), file_at_uploaded.
      by rewrite decide_True by done.
  - intros e i u s' l Hdel.
    assert (wf s') as Hwf'
      by (eapply wf_transition, delete_call_transition; done).
    apply deleteFile_success in Hdel as (-> & _).
    rewrite (wf_public _ Hwf'), file_at_deleted.
    rewrite decide_True by done. cbn. by intros [].
Qed.

(** After the scenario's two uploads the index holds the public file only;
    after the delete it is empty again. *)
Lemma public_index_consistency_witness :
  getPublicFiles (Scenario.as_ Scenario.bob) Scenario.stocked =
    Success [0] Scenario.stocked []
  ∧ getPublicFiles (Scenario.as_ Scenario.bob) Scenario.pruned =
      Success [] Scenario.pruned [].
Proof.
  split.
  - exact (proj1 (public_index_consistency Scenario.admin
             Scenario.two_uploads (Scenario.as_ Scenario.bob))).
  - exact (proj1 (public_index_consistency Scenario.admin
             Scenario.then_delete (Scenario.as_ Scenario.bob))).
Defined.

(** ** Deletion is final *)

(** C4, as stated, fails: a deleted record is not reported the way an
    absent one is. In the scenario, reading the deleted id 0 fails with
    "File has been deleted", for its owner too, while the id 7 that was
    never issued fails with "File does not exist". *)
Lemma deleted_is_not_reported_as_absent :
  deleteFile 0 (Scenario.as_ Scenario.alice) Scenario.stocked =
    Success tt Scenario.pruned
      [Emit (FileDeleted 0 Scenario.alice)]
  ∧ getFile 0 (Scenario.as_ Scenario.alice) Scenario.pruned =
      Failed (Revert "File has been deleted")
  ∧ getFile 7 (Scenario.as_ Scenario.alice) Scenario.pruned =
      Failed (Revert "File does not exist")
  ∧ getFile 0 (Scenario.as_ Scenario.alice) Scenario.pruned ≠
      Failed (Revert "File does not exist").
Proof.
  split; [vm_compute; reflexivity|].
  split; [vm_compute; reflexivity|].
  split; [vm_compute; reflexivity|].
  vm_compute. discriminate.
Qed.

(** C4, amended. Once [deleteFile] has succeeded on an id, [getFile] of
    that id fails with "File has been deleted" for every caller, the
    former owner included, after any further sequence of transactions.
    The reason differs from the "File does not exist" of an id that was
    never issued. *)
Theorem deleteFile_is_final
    (fileId : Z) (env : Env) (s s' : State) (l : list Effect)
    (cs : list (Env * Tx)) (env' : Env) :
  deleteFile fileId env s = Success tt s' l →
  getFile fileId env' (run s' cs) = Failed (Revert "File has been deleted")
  ∧ getFile (fileIdCounter (run s' cs)) env' (run s' cs) =
      Failed (Revert "File does not exist").
Proof.
  intros Hdel. apply deleteFile_success in Hdel as (-> & Hlt & _ & _).
  assert (tombstoned (deleted fileId s) fileId) as Ht.
  { split; [done|]. rewrite file_at_deleted. by rewrite decide_True. }
  apply (tombstoned_run cs) in Ht as [Hlt' Hdel'].
  split.
  - rewrite getFile_eq, (proj2 (Z.ltb_lt _ _) Hlt'), Hdel'. reflexivity.
  - rewrite getFile_eq, Z.ltb_irrefl. reflexivity.
Qed.

(** In the scenario the deleted file stays unreadable for its owner after
    the later share of the other file. *)
Lemma deleteFile_is_final_witness :
  getFile 0 (Scenario.as_ Scenario.alice)
    (run Scenario.pruned
       [(Scenario.as_ Scenario.alice, TxShareFile 1 Scenario.bob)]) =
    Failed (Revert "File has been deleted").
Proof.
  refine (proj1 (deleteFile_is_final 0 (Scenario.as_ Scenario.alice)
            Scenario.stocked Scenario.pruned
            [Emit (FileDeleted 0 Scenario.alice)]
            [(Scenario.as_ Scenario.alice, TxShareFile 1 Scenario.bob)]
            (Scenario.as_ Scenario.alice) _)).
  vm_compute. reflexivity.
Defined.

(** ** Identifiers *)

Lemma uploads_lower cs : ∀ s p, p ∈ uploads s cs → fileIdCounter s ≤ p.2.
Proof.
  induction cs as [|c cs IH]; intros s p; cbn [uploads].
  - by rewrite elem_of_nil.
  - destruct (call c.2 c.1 s) as [[i|] s' l|f] eqn:E.
    + apply call_issue in E as (-> & f & held & _ & ->).
      rewrite elem_of_cons. intros [->|Hp]; [done|].
      apply IH in Hp. cbn in Hp. lia.
    + apply call_quiet in E as [<- _]. apply IH.
    + apply IH.
Qed.

(** C5. Along any sequence of transactions, started in any state, a later
    successful [uploadFile] returns an id strictly greater than the id of
    every earlier one, whatever was deleted in between; no id is issued
    below the counter the sequence started with. *)
Theorem uploadFile_ids_increase
    (s : State) (cs : list (Env * Tx)) (i j : nat) (a b : Z) :
  (i < j)%nat →
  issued s cs !! i = Some a →
  issued s cs !! j = Some b →
  a < b ∧ fileIdCounter s ≤ a.
Proof.
  unfold issued. revert s i j.
  induction cs as [|c cs IH]; intros s i j Hij; cbn [uploads].
  - by rewrite fmap_nil, lookup_nil.
  - destruct (call c.2 c.1 s) as [[k|] s' l|f] eqn:E.
    + apply call_issue in E as (-> & f & held & _ & ->).
      rewrite fmap_cons. cbn [snd].
      destruct j as [|j]; [lia|]. destruct i as [|i]; cbn [lookup list_lookup].
      * intros [= <-] Hb. split; [|done].
        apply list_elem_of_lookup_2, list_elem_of_fmap in Hb as (p & -> & Hp).
        apply uploads_lower in Hp. cbn in Hp. lia.
      * intros Ha Hb.
        destruct (IH _ i j ltac:(lia) Ha Hb) as [Hlt Hlow].
        split; [done|]. cbn in Hlow. lia.
    + apply call_quiet in E as [<- _]. by apply IH.
    + by apply IH.
Qed.

(** The two uploads of the scenario get the ids 0 and 1. *)
Lemma uploadFile_ids_increase_witness :
  issued (constructor Scenario.admin) Scenario.then_delete = [0; 1]
  ∧ 0 < 1 ∧ fileIdCounter (constructor Scenario.admin) ≤ 0.
Proof.
  split; [vm_compute; reflexivity|].
  refine (uploadFile_ids_increase (constructor Scenario.admin)
            Scenario.then_delete 0 1 0 1 _ _ _).
  - lia.
  - vm_compute. reflexivity.
  - vm_compute. reflexivity.
Defined.

(** ** Sharing *)

Lemma shareFile_by_owner fileId recipient env s :
  fileId < fileIdCounter s →
  File.owner (file_at s fileId) = msg_sender env →
  File.isDeleted (file_at s fileId) = false →
  shareFile fileId recipient env s =
    if bool_decide (recipient = 0)
    then Failed (Revert "Invalid recipient address")
    else if bool_decide (recipient = msg_sender env)
    then Failed (Revert "Cannot share with yourself")
    else Success tt
           (regranted fileId
              ({[recipient]} ∪ File.sharedWith (file_at s fileId)) s)
           [Emit (FileShared fileId (msg_sender env) recipient)].
Proof.
  intros Hlt Hown Hlive. apply Z.ltb_lt in Hlt.
  rewrite shareFile_eq, Hlt, Hlive, (bool_decide_eq_true_2 _ Hown).
  cbn [negb]. by repeat case_bool_decide.
Qed.

Lemma revokeAccess_by_owner fileId recipient env s :
  fileId < fileIdCounter s →
  File.owner (file_at s fileId) = msg_sender env →
  File.isDeleted (file_at s fileId) = false →
  revokeAccess fileId recipient env s =
    Success tt
      (regranted fileId
         (File.sharedWith (file_at s fileId) ∖ {[recipient]}) s)
      [Emit (AccessRevoked fileId (msg_sender env) recipient)].
Proof.
  intros Hlt Hown Hlive. apply Z.ltb_lt in Hlt.
  by rewrite revokeAccess_eq, Hlt, Hlive, (bool_decide_eq_true_2 _ Hown).
Qed.

(** C6, as stated, fails for [revokeAccess]: it does not look at the
    recipient. In the scenario alice revokes the zero address on her live
    file 1 and the call succeeds. *)
Lemma revokeAccess_accepts_zero_recipient :
  1 < fileIdCounter Scenario.stocked
  ∧ File.owner (file_at Scenario.stocked 1) = Scenario.alice
  ∧ File.isDeleted (file_at Scenario.stocked 1) = false
  ∧ revokeAccess 1 0 (Scenario.as_ Scenario.alice) Scenario.stocked =
      Success tt Scenario.stocked [Emit (AccessRevoked 1 Scenario.alice 0)]
  ∧ revokeAccess 1 0 (Scenario.as_ Scenario.alice) Scenario.stocked ≠
      Failed (Revert "Invalid recipient address").
Proof.
  split; [vm_compute; reflexivity|].
  split; [vm_compute; reflexivity|].
  split; [vm_compute; reflexivity|].
  split; [vm_compute; reflexivity|].
  vm_compute. discriminate.
Qed.

(** C6, amended. On an existing record that is not deleted and that the
    caller owns, [shareFile] rejects the zero address with "Invalid
    recipient address" and the owner's own address with "Cannot share with
    yourself", and accepts every other recipient; [revokeAccess] checks
    nothing about the recipient and succeeds for every one of them, the
    zero address included. *)
Theorem shareFile_checks_recipient
    (fileId recipient : Z) (env : Env) (s : State) :
  fileId < fileIdCounter s →
  File.owner (file_at s fileId) = msg_sender env →
  File.isDeleted (file_at s fileId) = false →
  (recipient = 0 →
     shareFile fileId recipient env s =
       Failed (Revert "Invalid recipient address"))
  ∧ (recipient ≠ 0 → recipient = msg_sender env →
     shareFile fileId recipient env s =
       Failed (Revert "Cannot share with yourself"))
  ∧ (recipient ≠ 0 → recipient ≠ msg_sender env →
     shareFile fileId recipient env s =
       Success tt
         (regranted fileId
            ({[recipient]} ∪ File.sharedWith (file_at s fileId)) s)
         [Emit (FileShared fileId (msg_sender env) recipient)])
  ∧ revokeAccess fileId recipient env s =
      Success tt
        (regranted fileId
           (File.sharedWith (file_at s fileId) ∖ {[recipient]}) s)
        [Emit (AccessRevoked fileId (msg_sender env) recipient)].
Proof.
  intros Hlt Hown Hlive.
  rewrite shareFile_by_owner, revokeAccess_by_owner by done.
  split; [|split; [|split]]; try done.
  - intros ->. reflexivity.
  - intros H0 Hself.
    by rewrite (bool_decide_eq_false_2 _ H0), (bool_decide_eq_true_2 _ Hself).
  - intros H0 Hother.
    by rewrite (bool_decide_eq_false_2 _ H0), (bool_decide_eq_false_2 _ Hother).
Qed.

(** In the scenario alice cannot share file 1 with the zero address. *)
Lemma shareFile_checks_recipient_witness :
  shareFile 1 0 (Scenario.as_ Scenario.alice) Scenario.stocked =
    Failed (Revert "Invalid recipient address").
Proof.
  refine (proj1 (shareFile_checks_recipient 1 0
            (Scenario.as_ Scenario.alice) Scenario.stocked _ _ _) _).
  - vm_compute. reflexivity.
  - vm_compute. reflexivity.
  - vm_compute. reflexivity.
  - reflexivity.
Defined.

Lemma grants_revoke_absent (g : gset Z) (r : Z) : r ∉ g → g ∖ {[r]} = g.
Proof. intros H. by apply difference_disjoint_L, disjoint_singleton_r. Qed.

Lemma grants_share_twice (g : gset Z) (r : Z) :
  {[r]} ∪ ({[r]} ∪ g) = {[r]} ∪ g.
Proof. by rewrite (assoc_L (∪)), union_idemp_L. Qed.

Lemma grants_share_revoke (g : gset Z) (r : Z) :
  r ∉ g → ({[r]} ∪ g) ∖ {[r]} = g.
Proof.
  intros H.
  rewrite difference_union_distr_l_L, difference_diag_L, union_empty_l_L.
  by apply grants_revoke_absent.
Qed.

Lemma grants_revoke_gone (g : gset Z) (r : Z) : r ∉ g ∖ {[r]}.
Proof. rewrite elem_of_difference, elem_of_singleton. by intros [_ []]. Qed.

Lemma grants_share_in (g : gset Z) (r : Z) : r ∈ {[r]} ∪ g.
Proof. by apply elem_of_union_l, elem_of_singleton. Qed.

Lemma regranted_regranted j g g' s :
  regranted j g' (regranted j g s) = regranted j g' s.
Proof.
  unfold regranted at 1. rewrite file_at_regranted, decide_True by done.
  unfold regranted. cbn [with_files files storageFeePerByte fileIdCounter
    userFiles publicFiles _owner balance].
  by rewrite insert_insert_eq.
Qed.

Lemma regranted_same j s :
  is_Some (files s !! j) →
  regranted j (File.sharedWith (file_at s j)) s = s.
Proof.
  intros [f Hf]. unfold regranted, file_at. rewrite Hf.
  cbn [default from_option id].
  replace (File.set_sharedWith (File.sharedWith f) f) with f by (destruct f; reflexivity).
  rewrite insert_id by done. by destruct s.
Qed.

(** C7. In a state reached from deployment, on an existing record that is
    not deleted and that the caller owns: revoking a recipient who holds no
    grant succeeds and returns the very same state; sharing with a valid
    recipient succeeds, and sharing again returns the state the first
    share produced, with the recipient in [sharedWith]; one revoke then
    takes the recipient out, and gives back the original state when the
    recipient held no grant to begin with. *)
Theorem grant_revoke_set_semantics
    (deployer : Z) (cs : list (Env * Tx)) (env : Env) (fileId r : Z) :
  let s := run (constructor deployer) cs in
  0 ≤ fileId < fileIdCounter s →
  File.owner (file_at s fileId) = msg_sender env →
  File.isDeleted (file_at s fileId) = false →
  ((r ∉ File.sharedWith (file_at s fileId)) →
     revokeAccess fileId r env s =
       Success tt s [Emit (AccessRevoked fileId (msg_sender env) r)])
  ∧ (r ≠ 0 → r ≠ msg_sender env →
     ∃ s1 s2,
       shareFile fileId r env s =
         Success tt s1 [Emit (FileShared fileId (msg_sender env) r)]
       ∧ shareFile fileId r env s1 =
           Success tt s1 [Emit (FileShared fileId (msg_sender env) r)]
       ∧ r ∈ File.sharedWith (file_at s1 fileId)
       ∧ revokeAccess fileId r env s1 =
           Success tt s2 [Emit (AccessRevoked fileId (msg_sender env) r)]
       ∧ (r ∉ File.sharedWith (file_at s2 fileId))
       ∧ ((r ∉ File.sharedWith (file_at s fileId)) → s2 = s)).
Proof.
  intros s Hid Hown Hlive.
  assert (wf s) as Hwf by (apply wf_run, wf_constructor).
  assert (is_Some (files s !! fileId)) as Hstored by (by apply Hwf).
  assert (fileId < fileIdCounter s) as Hlt by lia.
  pose proof (shareFile_by_owner fileId r env s Hlt Hown Hlive) as Hshare.
  pose proof (revokeAccess_by_owner fileId r env s Hlt Hown Hlive) as Hrevoke.
  split.
  - intros Hnot. rewrite Hrevoke, grants_revoke_absent by done.
    by rewrite regranted_same.
  - intros H0 Hother.
    set (g := File.sharedWith (file_at s fileId)) in *.
    assert (file_at (regranted fileId ({[r]} ∪ g) s) fileId
            = File.set_sharedWith ({[r]} ∪ g) (file_at s fileId)) as Hat
      by (by rewrite file_at_regranted, decide_True).
    rewrite (bool_decide_eq_false_2 _ H0), (bool_decide_eq_false_2 _ Hother)
      in Hshare.
    assert (shareFile fileId r env (regranted fileId ({[r]} ∪ g) s) = _)
      as Hshare' by (apply shareFile_by_owner; by rewrite ?Hat).
    assert (revokeAccess fileId r env (regranted fileId ({[r]} ∪ g) s) = _)
      as Hrevoke' by (apply revokeAccess_by_owner; by rewrite ?Hat).
    rewrite (bool_decide_eq_false_2 _ H0), (bool_decide_eq_false_2 _ Hother)
      in Hshare'.
    rewrite Hat in Hshare', Hrevoke'.
    cbn [File.set_sharedWith File.sharedWith] in Hshare', Hrevoke'.
    rewrite regranted_regranted in Hshare', Hrevoke'.
    rewrite grants_share_twice in Hshare'.
    exists (regranted fileId ({[r]} ∪ g) s),
           (regranted fileId (({[r]} ∪ g) ∖ {[r]}) s).
    split; [done|]. split; [done|].
    split; [rewrite Hat; apply grants_share_in|].
    split; [done|]. split.
    { rewrite file_at_regranted, decide_True by done.
      apply grants_revoke_gone. }
    intros Hnot. rewrite grants_share_revoke by done.
    by apply regranted_same.
Qed.

(** In the scenario alice revokes carol, who was never granted anything,
    and nothing changes. *)
Lemma grant_revoke_set_semantics_witness :
  revokeAccess 1 0xC0 (Scenario.as_ Scenario.alice)
    (run (constructor Scenario.admin) Scenario.then_share) =
    Success tt (run (constructor Scenario.admin) Scenario.then_share)
      [Emit (AccessRevoked 1 Scenario.alice 0xC0)].
Proof.
  refine (proj1 (grant_revoke_set_semantics Scenario.admin Scenario.then_share
            (Scenario.as_ Scenario.alice) 1 0xC0 _ _ _) _).
  - vm_compute. split; [discriminate|reflexivity].
  - vm_compute. reflexivity.
  - vm_compute. reflexivity.
  - vm_compute. discriminate.
Defined.

(** ** Listing one's files *)

Lemma countActive_spec s (myFiles : list Z) :
  ∀ n, countActive s myFiles n = (n + length (filter (live s) myFiles))%nat.
Proof.
  induction myFiles as [|x l IH]; intros n; cbn [countActive].
  - cbn. lia.
  - rewrite filter_cons.
    destruct (decide (live s x)) as [Hx|Hx]; unfold live in Hx.
    + rewrite Hx. cbn [negb]. rewrite IH. cbn [length]. lia.
    + apply not_false_iff_true in Hx. rewrite Hx. cbn [negb]. apply IH.
Qed.

(** The second pass never writes out of bounds: it fills the array sized
    by the first pass from left to right with the live entries. *)
Lemma fillActive_spec s (myFiles : list Z) :
  ∀ filled : list Z,
    fillActive s myFiles
      (filled ++ replicate (length (filter (live s) myFiles)) 0)
      (length filled)
    = inr (filled ++ filter (live s) myFiles).
Proof.
  induction myFiles as [|x l IH]; intros filled; cbn [fillActive].
  - reflexivity.
  - rewrite filter_cons.
    destruct (decide (live s x)) as [Hx|Hx]; unfold live in Hx.
    + rewrite Hx. cbn [negb length replicate].
      rewrite bool_decide_eq_true_2
        by (rewrite length_app; cbn [length]; lia).
      replace (length filled) with (length filled + 0)%nat at 1 by lia.
      rewrite insert_app_r. cbn [insert list_insert].
      rewrite (cons_middle x filled (replicate _ _)), app_assoc.
      replace (S (length filled)) with (length (filled ++ [x]))
        by (rewrite length_app; cbn [length]; lia).
      rewrite IH. by rewrite <- app_assoc.
    + apply not_false_iff_true in Hx. rewrite Hx. cbn [negb]. apply IH.
Qed.

Lemma getMyFiles_eq env s :
  getMyFiles env s =
    Success (filter (live s) (userFiles_at s (msg_sender env))) s [].
Proof.
  unfold getMyFiles. unfold_contract. cbv beta iota.
  rewrite countActive_spec. cbn [Nat.add].
  pose proof (fillActive_spec s (userFiles_at s (msg_sender env)) []) as H.
  cbn [app length] in H. by rewrite H.
Qed.

Lemma userFiles_at_run cs : ∀ s u,
  userFiles_at (run s cs) u = userFiles_at s u ++ created_by u s cs.
Proof.
  unfold created_by.
  induction cs as [|c cs IH]; intros s u.
  - cbn. by rewrite app_nil_r.
  - cbn [run foldl uploads]. fold (run (step s c) cs). rewrite IH.
    unfold step. destruct (call c.2 c.1 s) as [[i|] s' l|f] eqn:E.
    + apply call_issue in E as (-> & f & held & Hf & ->).
      rewrite userFiles_at_uploaded, filter_cons. cbn [fst].
      rewrite Hf. case_decide; [|done].
      by rewrite fmap_cons, <- app_assoc.
    + apply call_quiet in E as [_ Hu]. unfold userFiles_at. by rewrite Hu.
    + done.
Qed.

(** C8. In every state reached from deployment, the list stored for a
    caller is the list of the ids that caller was issued, oldest first;
    [getMyFiles] returns its entries that are not deleted, in that order;
    and a [deleteFile] transaction leaves the stored lists as they are. *)
Theorem getMyFiles_filters_tombstones
    (deployer : Z) (cs : list (Env * Tx)) (env : Env) :
  let s := run (constructor deployer) cs in
  let mine := created_by (msg_sender env) (constructor deployer) cs in
  userFiles_at s (msg_sender env) = mine
  ∧ getMyFiles env s = Success (filter (live s) mine) s []
  ∧ (∀ e fileId, userFiles (step s (e, TxDeleteFile fileId)) = userFiles s).
Proof.
  intros s mine.
  assert (userFiles_at s (msg_sender env) = mine) as Hmine.
  { unfold s, mine. by rewrite userFiles_at_run. }
  split; [done|]. split.
  - by rewrite getMyFiles_eq, Hmine.
  - intros e fileId. unfold step. cbn [fst snd].
    destruct (call (TxDeleteFile fileId) e s) as [[i|] s' l|f] eqn:E.
    + revert E. run_call; intros ?; simplify_eq.
    + by apply call_quiet in E as [_ ->].
    + done.
Qed.

(** In the scenario alice created the ids 0 and 1 and deleted 0: her
    stored list still holds both, her listing holds 1 only. *)
Lemma getMyFiles_filters_tombstones_witness :
  userFiles_at Scenario.pruned Scenario.alice = [0; 1]
  ∧ getMyFiles (Scenario.as_ Scenario.alice) Scenario.pruned =
      Success [1] Scenario.pruned [].
Proof.
  pose proof (getMyFiles_filters_tombstones Scenario.admin
                Scenario.then_delete (Scenario.as_ Scenario.alice))
    as (H1 & H2 & _).
  split.
  - etrans; [exact H1|]. vm_compute. reflexivity.
  - etrans; [exact H2|]. vm_compute. reflexivity.
Defined.

(** ** Every transaction is one of the cases *)

Lemma call_failed_step s env tx f :
  call tx env s = Failed f → step s (env, tx) = s.
Proof. unfold step. cbn [fst snd]. by intros ->. Qed.

Lemma step_performs s env tx : performs s env tx (step s (env, tx)).
Proof.
  unfold step. cbn [fst snd].
  destruct (call tx env s) as [r s' l|f] eqn:E; [|by econstructor].
  revert E. destruct tx; run_call; intros ?; simplify_eq.
  - replace (balance s + msg_value - (msg_value - fileSize * storageFeePerByte s))
      with (balance s + fileSize * storageFeePerByte s) by lia.
    constructor; by apply Z.leb_le.
  - assert (msg_value = fileSize * storageFeePerByte s) as ->.
    { apply Z.leb_le in Heqb0. apply Z.ltb_ge in Heqb2. lia. }
    constructor; by apply Z.leb_le.
  - constructor; [by apply Z.ltb_lt|by eapply bool_decide_eq_true_1
                 |by apply negb_true_iff].
  - constructor; [by apply Z.ltb_lt|by eapply bool_decide_eq_true_1
                 |by apply negb_true_iff| |].
    + apply negb_true_iff in Heqb2. by eapply bool_decide_eq_false_1.
    + apply negb_true_iff in Heqb3. by eapply bool_decide_eq_false_1.
  - constructor; [by apply Z.ltb_lt|by eapply bool_decide_eq_true_1
                 |by apply negb_true_iff].
  - constructor. by eapply bool_decide_eq_true_1.
  - rewrite Z.sub_diag. constructor; [by eapply bool_decide_eq_true_1|].
    by apply Z.ltb_lt.
  - constructor. by eapply bool_decide_eq_true_1.
  - constructor. by eapply bool_decide_eq_true_1.
Qed.

Lemma performs_counter s env tx s' :
  performs s env tx s' → fileIdCounter s ≤ fileIdCounter s'.
Proof. destruct 1; cbn; lia. Qed.

Lemma run_counter cs : ∀ s, fileIdCounter s ≤ fileIdCounter (run s cs).
Proof.
  induction cs as [|[env tx] cs IH]; intros s; [done|].
  cbn [run foldl]. fold (run (step s (env, tx)) cs).
  etrans; [|apply IH]. eapply performs_counter, step_performs.
Qed.

(** ** Records never change hands or content *)

Lemma performs_info s env tx s' i :
  performs s env tx s' → i < fileIdCounter s →
  info_of (file_at s' i) = info_of (file_at s i).
Proof.
  destruct 1; intros Hi; try done.
  - rewrite file_at_uploaded. by rewrite decide_False by lia.
  - rewrite file_at_deleted. by case_decide; subst.
  - rewrite file_at_regranted. by case_decide; subst.
  - rewrite file_at_regranted. by case_decide; subst.
Qed.

Lemma run_info cs : ∀ s i,
  i < fileIdCounter s →
  info_of (file_at (run s cs) i) = info_of (file_at s i).
Proof.
  induction cs as [|[env tx] cs IH]; intros s i Hi; [done|].
  cbn [run foldl]. fold (run (step s (env, tx)) cs).
  pose proof (step_performs s env tx) as Hp.
  rewrite IH by (apply performs_counter in Hp; lia).
  by eapply performs_info.
Qed.

(** X1. Once an id is issued, the metadata [getFile] reports for it (id,
    name, type, size, content hash, description, owner, timestamp and
    public flag) is the same after any sequence of transactions: whenever
    a later [getFile] succeeds, it returns what was stored at upload. *)
Theorem metadata_is_immutable
    (s : State) (cs : list (Env * Tx)) (fileId : Z) (env : Env)
    (info : FileInfo) (s' : State) (l : list Effect) :
  fileId < fileIdCounter s →
  getFile fileId env (run s cs) = Success info s' l →
  info = info_of (file_at s fileId)
  ∧ File.owner (file_at (run s cs) fileId) = File.owner (file_at s fileId)
  ∧ File.isPublic (file_at (run s cs) fileId)
    = File.isPublic (file_at s fileId).
Proof.
  intros Hi Hget.
  pose proof (run_info cs s fileId Hi) as Hinfo.
  split; [|split].
  - rewrite getFile_eq in Hget. clear Hinfo.
    repeat case_match; simplify_eq. by apply run_info.
  - by injection Hinfo.
  - by injection Hinfo.
Qed.

(** In the scenario, what bob reads of file 1 after the delete and the
    share is what alice uploaded. *)
Lemma metadata_is_immutable_witness :
  info_of (file_at Scenario.shared 1) = info_of (file_at Scenario.stocked 1).
Proof.
  refine (proj1 (metadata_is_immutable Scenario.stocked
    [(Scenario.as_ Scenario.alice, TxDeleteFile 0);
     (Scenario.as_ Scenario.alice, TxShareFile 1 Scenario.bob)]
    1 (Scenario.as_ Scenario.bob)
    (info_of (file_at Scenario.shared 1)) Scenario.shared [] _ _)).
  - vm_compute. reflexivity.
  - vm_compute. reflexivity.
Defined.

(** ** Who can change a record *)

Lemma performs_touch s env tx s' i :
  performs s env tx s' → i < fileIdCounter s →
  file_at s' i ≠ file_at s i →
  msg_sender env = File.owner (file_at s i) ∧ targets tx i.
Proof.
  destruct 1; intros Hi Hne; try done.
  - rewrite file_at_uploaded, decide_False in Hne by lia. done.
  - rewrite file_at_deleted in Hne. case_decide; [by subst|done].
  - rewrite file_at_regranted in Hne. case_decide; [by subst|done].
  - rewrite file_at_regranted in Hne. case_decide; [by subst|done].
Qed.

(** X2. A transaction changes the stored record of an issued id only if
    it is a [deleteFile], [shareFile] or [revokeAccess] of that very id
    sent by the record's owner. Uploads, operations on other ids, and
    everything the contract owner can do leave it as it is. *)
Theorem record_changes_only_by_owner
    (s : State) (env : Env) (tx : Tx) (fileId : Z) :
  fileId < fileIdCounter s →
  file_at (step s (env, tx)) fileId ≠ file_at s fileId →
  msg_sender env = File.owner (file_at s fileId) ∧ targets tx fileId.
Proof. intros. eapply performs_touch; [apply step_performs|done..]. Qed.

(** In the scenario, the delete that changed record 0 was alice's. *)
Lemma record_changes_only_by_owner_witness :
  msg_sender (Scenario.as_ Scenario.alice)
    = File.owner (file_at Scenario.stocked 0)
  ∧ targets (TxDeleteFile 0) 0.
Proof.
  refine (record_changes_only_by_owner Scenario.stocked
            (Scenario.as_ Scenario.alice) (TxDeleteFile 0) 0 _ _).
  - vm_compute. reflexivity.
  - vm_compute. discriminate.
Defined.

Lemma performs_stranger s env tx s' i :
  performs s env tx s' → i < fileIdCounter s →
  msg_sender env ≠ File.owner (file_at s i) →
  file_at s' i = file_at s i.
Proof.
  destruct 1; intros Hi Hne; try done.
  - rewrite file_at_uploaded. by rewrite decide_False by lia.
  - rewrite file_at_deleted. case_decide; [subst; congruence|done].
  - rewrite file_at_regranted. case_decide; [subst; congruence|done].
  - rewrite file_at_regranted. case_decide; [subst; congruence|done].
Qed.

Lemma strangers_run cs : ∀ s i,
  i < fileIdCounter s →
  Forall (λ c, msg_sender c.1 ≠ File.owner (file_at s i)) cs →
  file_at (run s cs) i = file_at s i.
Proof.
  induction cs as [|[env tx] cs IH]; intros s i Hi Hcs; [done|].
  apply Forall_cons in Hcs as [Hc Hcs]. cbn [fst] in Hc.
  cbn [run foldl]. fold (run (step s (env, tx)) cs).
  pose proof (step_performs s env tx) as Hp.
  assert (file_at (step s (env, tx)) i = file_at s i) as Hsame
    by (by eapply performs_stranger).
  rewrite IH.
  - done.
  - apply performs_counter in Hp. lia.
  - by rewrite Hsame.
Qed.

(** X3. Whatever transactions callers other than the owner of a record
    send, in any number and order, the record stays exactly as it was:
    they cannot delete it, and they cannot add or remove a grant. *)
Theorem strangers_leave_record_alone
    (s : State) (cs : list (Env * Tx)) (fileId : Z) :
  fileId < fileIdCounter s →
  Forall (λ c, msg_sender c.1 ≠ File.owner (file_at s fileId)) cs →
  file_at (run s cs) fileId = file_at s fileId
  ∧ ∀ user, may_read (file_at (run s cs) fileId) user
            = may_read (file_at s fileId) user.
Proof.
  intros Hi Hcs. pose proof (strangers_run cs s fileId Hi Hcs) as ->. done.
Qed.

(** In the scenario, bob and the deployer try to delete, share and revoke
    on alice's file 1: it is untouched. *)
Lemma strangers_leave_record_alone_witness :
  file_at
    (run Scenario.stocked
       [(Scenario.as_ Scenario.bob, TxDeleteFile 1);
        (Scenario.as_ Scenario.bob, TxShareFile 1 Scenario.bob);
        (Scenario.as_ Scenario.admin, TxRevokeAccess 1 Scenario.alice)]) 1
  = file_at Scenario.stocked 1.
Proof.
  refine (proj1 (strangers_leave_record_alone Scenario.stocked
    [(Scenario.as_ Scenario.bob, TxDeleteFile 1);
     (Scenario.as_ Scenario.bob, TxShareFile 1 Scenario.bob);
     (Scenario.as_ Scenario.admin, TxRevokeAccess 1 Scenario.alice)] 1 _ _)).
  - vm_compute. reflexivity.
  - repeat constructor; vm_compute; discriminate.
Defined.

(** ** A deleted record stays out of reach *)

(** X4. After a successful [deleteFile], whatever happens next, the id
    cannot be deleted again, shared or revoked: the former owner gets the
    "already deleted", "Cannot share a deleted file" and "Cannot modify a
    deleted file" failures, every other caller the owner-only failure of
    the entry point, and [hasFileAccess] fails with "File has been
    deleted" for every user asked about. *)
Theorem tombstone_blocks_mutation
    (fileId : Z) (env : Env) (s s' : State) (l : list Effect)
    (cs : list (Env * Tx)) (env' : Env) (user : Z) :
  deleteFile fileId env s = Success tt s' l →
  deleteFile fileId env' (run s' cs) =
    Failed (Revert (if bool_decide (msg_sender env' = msg_sender env)
                    then "File already deleted"
                    else "Only the owner can delete this file"))
  ∧ shareFile fileId user env' (run s' cs) =
      Failed (Revert (if bool_decide (msg_sender env' = msg_sender env)
                      then "Cannot share a deleted file"
                      else "Only the owner can share this file"))
  ∧ revokeAccess fileId user env' (run s' cs) =
      Failed (Revert (if bool_decide (msg_sender env' = msg_sender env)
                      then "Cannot modify a deleted file"
                      else "Only the owner can revoke access"))
  ∧ hasFileAccess fileId user env' (run s' cs) =
      Failed (Revert "File has been deleted").
Proof.
  intros Hdel. apply deleteFile_success in Hdel as (-> & Hlt & Hown & _).
  assert (tombstoned (deleted fileId s) fileId) as Ht.
  { split; [done|]. rewrite file_at_deleted. by rewrite decide_True. }
  apply (tombstoned_run cs) in Ht as [Hlt' Hdel'].
  assert (File.owner (file_at (run (deleted fileId s) cs) fileId)
          = msg_sender env) as Hown'.
  { pose proof (run_info cs (deleted fileId s) fileId Hlt) as Hinfo.
    rewrite file_at_deleted, decide_True in Hinfo by done.
    injection Hinfo as _ _ _ _ _ _ Ho _ _. by rewrite Ho. }
  apply Z.ltb_lt in Hlt'.
  rewrite deleteFile_eq, shareFile_eq, revokeAccess_eq, hasFileAccess_eq.
  rewrite Hlt', Hdel', Hown'. cbn [negb].
  rewrite (bool_decide_ext (msg_sender env = msg_sender env')
             (msg_sender env' = msg_sender env)) by done.
  by case_bool_decide.
Qed.

(** In the scenario alice cannot delete file 0 a second time. *)
Lemma tombstone_blocks_mutation_witness :
  deleteFile 0 (Scenario.as_ Scenario.alice)
    (run Scenario.pruned
       [(Scenario.as_ Scenario.alice, TxShareFile 1 Scenario.bob)]) =
    Failed (Revert "File already deleted").
Proof.
  refine (proj1 (tombstone_blocks_mutation 0 (Scenario.as_ Scenario.alice)
            Scenario.stocked Scenario.pruned
            [Emit (FileDeleted 0 Scenario.alice)]
            [(Scenario.as_ Scenario.alice, TxShareFile 1 Scenario.bob)]
            (Scenario.as_ Scenario.alice) 0 _)).
  vm_compute. reflexivity.
Defined.

(** ** Ether *)



(** X6. The only address a successful call ever sends Ether to is the
    caller of that very call (the refund of [uploadFile], the payout of
    [withdrawFunds]); the amount is positive and within what the contract
    holds once the call's own payment is counted. *)
Theorem ether_goes_to_caller_only
    (tx : Tx) (env : Env) (s : State) (r : option Z) (s' : State)
    (l : list Effect) (recipient amount : Z) :
  call tx env s = Success r s' l →
  Sent recipient amount ∈ l →
  recipient = msg_sender env ∧ 0 < amount ∧ amount ≤ balance s + paid tx.
Proof.
  destruct tx; run_call; intros ? Hin; simplify_eq;
    cbn [app] in Hin;
    repeat (apply elem_of_cons in Hin as [Hin|Hin]; simplify_eq);
    try (by apply elem_of_nil in Hin); cbn [paid].
  - apply andb_true_iff in Heqb3 as [Hb _].
    apply Z.leb_le in Hb. apply Z.ltb_lt in Heqb2. lia.
  - apply bool_decide_eq_true_1 in Heqb. apply Z.ltb_lt in Heqb0. lia.
Qed.


(** In the scenario, the refund of the overpaid upload goes to alice. *)
Lemma ether_goes_to_caller_only_witness :
  Scenario.alice = msg_sender (Scenario.as_ Scenario.alice)
  ∧ 0 < 50000
  ∧ 50000 ≤ balance Scenario.priced
           + paid (TxUploadFile "b.txt" "text/plain" 1000 "QmB" "" false 150000).
Proof.
  refine (ether_goes_to_caller_only
    (TxUploadFile "b.txt" "text/plain" 1000 "QmB" "" false 150000)
    (Scenario.as_ Scenario.alice) Scenario.priced (Some 0)
    (step Scenario.priced
       (Scenario.as_ Scenario.alice,
        TxUploadFile "b.txt" "text/plain" 1000 "QmB" "" false 150000))
    [Emit (FileUploaded 0 "b.txt" Scenario.alice "QmB");
     Sent Scenario.alice 50000]
    Scenario.alice 50000 _ _).
  - vm_compute. reflexivity.
  - apply elem_of_cons. right. apply elem_of_cons. by left.
Defined.

(** ** Ids are consecutive *)

Lemma issued_seqZ cs : ∀ s,
  issued s cs =
    seqZ (fileIdCounter s) (fileIdCounter (run s cs) - fileIdCounter s).
Proof.
  unfold issued.
  induction cs as [|[env tx] cs IH]; intros s.
  - cbn. by rewrite Z.sub_diag.
  - cbn [run foldl uploads fst snd].
    fold (run (step s (env, tx)) cs). unfold step. cbn [fst snd].
    destruct (call tx env s) as [[i|] s' l|f] eqn:E.
    + apply call_issue in E as (-> & f & held & _ & ->).
      pose proof (run_counter cs (uploaded f held s)) as Hle.
      rewrite fmap_cons, IH. cbn [snd uploaded fileIdCounter] in *.
      rewrite (seqZ_cons (fileIdCounter s)) by lia.
      do 2 f_equal; lia.
    + apply call_quiet in E as [E _]. by rewrite IH, E.
    + apply IH.
Qed.

(** X7. From deployment on, the ids handed out are 0, 1, 2, ... without a
    gap: the list of issued ids is the interval from 0 up to the counter,
    so the counter is the number of successful uploads and the next id. *)
Theorem issued_ids_are_consecutive (deployer : Z) (cs : list (Env * Tx)) :
  let s := run (constructor deployer) cs in
  issued (constructor deployer) cs = seqZ 0 (fileIdCounter s)
  ∧ fileIdCounter s = Z.of_nat (length (issued (constructor deployer) cs)).
Proof.
  intros s. pose proof (run_counter cs (constructor deployer)) as Hle.
  fold s in Hle. cbn in Hle.
  assert (issued (constructor deployer) cs = seqZ 0 (fileIdCounter s)) as E.
  { unfold s. rewrite issued_seqZ. cbn. by rewrite Z.sub_0_r. }
  split; [done|]. rewrite E, length_seqZ. lia.
Qed.

(** In the scenario two ids were issued and the counter is 2. *)
Lemma issued_ids_are_consecutive_witness :
  issued (constructor Scenario.admin) Scenario.then_share
  = seqZ 0 (fileIdCounter Scenario.shared).
Proof.
  exact (proj1 (issued_ids_are_consecutive Scenario.admin
                  Scenario.then_share)).
Defined.

(** ** Per-user lists *)

Lemma wf_lists_constructor deployer : wf_lists (constructor deployer).
Proof.
  split; cbn.
  - unfold MAX_UINT256. lia.
  - intros. lia.
  - intros u. unfold userFiles_at. cbn. rewrite lookup_empty. constructor.
  - intros u i. unfold userFiles_at. cbn. rewrite lookup_empty. cbn.
    rewrite elem_of_nil. split; [done|]. lia.
Qed.

Lemma wf_lists_performs s env tx s' :
  wf_lists s → performs s env tx s' → wf_lists s'.
Proof.
  intros [Hc Hid Hsorted Hmem] Hp. destruct Hp; try (by split).
  - split; cbn [uploaded fileIdCounter].
    + lia.
    + intros i Hi. rewrite file_at_uploaded. case_decide; [by subst|].
      apply Hid. lia.
    + intros u. rewrite userFiles_at_uploaded. case_decide; [|done].
      apply StronglySorted_app_2; [|done|repeat constructor].
      intros x1 x2 Hx1 Hx2. apply list_elem_of_singleton in Hx2 as ->.
      apply Hmem in Hx1. lia.
    + intros u i. rewrite userFiles_at_uploaded, file_at_uploaded.
      cbn [new_file File.owner]. case_decide as Hu; case_decide as Hi.
      * subst. rewrite elem_of_app, list_elem_of_singleton. split; [|tauto].
        intros _. split; [lia|done].
      * rewrite elem_of_app, list_elem_of_singleton, Hmem. split.
        -- intros [[? ?]|?]; [|done]. split; [lia|done].
        -- intros [? ?]. left. split; [lia|done].
      * subst i. rewrite Hmem. split; [lia|]. intros [_ ?]. done.
      * rewrite Hmem. split; intros [? ?]; (split; [lia|done]).
  - split; cbn [deleted fileIdCounter]; [done| | |].
    + intros i Hi. rewrite file_at_deleted. case_decide; [subst|]; by apply Hid.
    + done.
    + intros u i. rewrite file_at_deleted.
      case_decide; [subst|]; apply Hmem.
  - split; cbn [regranted with_files fileIdCounter]; [done| | |].
    + intros i Hi. rewrite file_at_regranted.
      case_decide; [subst|]; by apply Hid.
    + done.
    + intros u i. rewrite file_at_regranted.
      case_decide; [subst|]; apply Hmem.
  - split; cbn [regranted with_files fileIdCounter]; [done| | |].
    + intros i Hi. rewrite file_at_regranted.
      case_decide; [subst|]; by apply Hid.
    + done.
    + intros u i. rewrite file_at_regranted.
      case_decide; [subst|]; apply Hmem.
Qed.

Lemma wf_lists_run cs : ∀ s, wf_lists s → wf_lists (run s cs).
Proof.
  induction cs as [|[env tx] cs IH]; intros s H; [done|].
  apply IH. eapply wf_lists_performs; [done|apply step_performs].
Qed.

(** X8. In every state reached from deployment the per-user lists split the
    issued ids by owner: an id is in a user's list exactly when it was
    issued and its record is owned by that user, each list is strictly
    increasing (so free of repetition), and every issued record carries its
    own id and sits in the list of its owner. The counter stays a
    [uint256]. *)
Theorem userFiles_partition
    (deployer : Z) (cs : list (Env * Tx)) (user : Z) :
  let s := run (constructor deployer) cs in
  0 ≤ fileIdCounter s ≤ MAX_UINT256
  ∧ StronglySorted Z.lt (userFiles_at s user)
  ∧ (∀ i, i ∈ userFiles_at s user ↔
       0 ≤ i < fileIdCounter s ∧ File.owner (file_at s i) = user)
  ∧ (∀ i, 0 ≤ i < fileIdCounter s →
       File.id (file_at s i) = i
       ∧ i ∈ userFiles_at s (File.owner (file_at s i))).
Proof.
  intros s.
  assert (wf_lists s) as [Hc Hid Hsorted Hmem]
    by (apply wf_lists_run, wf_lists_constructor).
  split; [done|]. split; [done|]. split; [done|].
  intros i Hi. split; [by apply Hid|]. by apply Hmem.
Qed.

(** In the scenario alice's list is [0; 1], strictly increasing. *)
Lemma userFiles_partition_witness :
  StronglySorted Z.lt (userFiles_at Scenario.pruned Scenario.alice).
Proof.
  exact (proj1 (proj2 (userFiles_partition Scenario.admin
                         Scenario.then_delete Scenario.alice))).
Defined.

(** ** Listings can be read *)

(** X9. In every state reached from deployment, each id that
    [getPublicFiles] lists was issued, and [getFile] on it succeeds for
    every caller, whoever they are, with the record's metadata;
    [hasFileAccess] answers true for every user. *)
Theorem public_listing_is_readable
    (deployer : Z) (cs : list (Env * Tx)) (env : Env) (fileId user : Z) :
  let s := run (constructor deployer) cs in
  fileId ∈ publicFiles s →
  fileId < fileIdCounter s
  ∧ getFile fileId env s = Success (info_of (file_at s fileId)) s []
  ∧ hasFileAccess fileId user env s = Success true s [].
Proof.
  intros s Hin.
  assert (wf s) as Hwf by (apply wf_run, wf_constructor).
  apply (wf_public _ Hwf) in Hin as [Hpub Hlive].
  assert (fileId < fileIdCounter s) as Hlt.
  { destruct (decide (fileId < fileIdCounter s)) as [|Hge]; [done|].
    unfold file_at in Hpub. rewrite (wf_fresh _ Hwf) in Hpub by lia.
    discriminate. }
  split; [done|]. apply Z.ltb_lt in Hlt.
  rewrite getFile_eq, hasFileAccess_eq, Hlt, Hlive. cbn [negb].
  unfold may_read. rewrite Hpub, !orb_true_r. done.
Qed.

(** In the scenario bob, who owns nothing, reads the public file 0. *)
Lemma public_listing_is_readable_witness :
  getFile 0 (Scenario.as_ Scenario.bob)
    (run (constructor Scenario.admin) Scenario.two_uploads) =
    Success
      (info_of (file_at (run (constructor Scenario.admin)
                           Scenario.two_uploads) 0))
      (run (constructor Scenario.admin) Scenario.two_uploads) [].
Proof.
  refine (proj1 (proj2 (public_listing_is_readable Scenario.admin
            Scenario.two_uploads (Scenario.as_ Scenario.bob) 0 0 _))).
  vm_compute. apply elem_of_cons. by left.
Defined.

Lemma StronglySorted_filter_lt (P : Z → Prop) `{!∀ x, Decision (P x)}
    (l : list Z) :
  StronglySorted Z.lt l → StronglySorted Z.lt (filter P l).
Proof.
  induction 1 as [|a l Hl IH Ha]; [constructor|].
  rewrite filter_cons. case_decide; [|done].
  constructor; [done|].
  apply Forall_forall. intros x Hx. apply list_elem_of_filter in Hx as [_ Hx].
  by eapply Forall_forall in Ha.
Qed.

(** X10. In every state reached from deployment, what [getMyFiles] returns
    to a caller is strictly increasing, and each id in it is an issued,
    not deleted record owned by the caller, on which the caller's
    [getFile] succeeds; conversely every such record is in the result. *)
Theorem own_listing_is_readable
    (deployer : Z) (cs : list (Env * Tx)) (env : Env) :
  let s := run (constructor deployer) cs in
  ∃ ids,
    getMyFiles env s = Success ids s []
    ∧ StronglySorted Z.lt ids
    ∧ (∀ i, i ∈ ids ↔
         0 ≤ i < fileIdCounter s
         ∧ File.owner (file_at s i) = msg_sender env
         ∧ File.isDeleted (file_at s i) = false)
    ∧ (∀ i, i ∈ ids →
         getFile i env s = Success (info_of (file_at s i)) s []).
Proof.
  intros s.
  assert (wf_lists s) as [Hc Hid Hsorted Hmem]
    by (apply wf_lists_run, wf_lists_constructor).
  assert (∀ i, i ∈ filter (live s) (userFiles_at s (msg_sender env)) ↔
               0 ≤ i < fileIdCounter s
               ∧ File.owner (file_at s i) = msg_sender env
               ∧ File.isDeleted (file_at s i) = false) as Hchar.
  { intros i. rewrite list_elem_of_filter, Hmem. unfold live. tauto. }
  eexists. split; [apply getMyFiles_eq|].
  split; [by apply StronglySorted_filter_lt|]. split; [done|].
  intros i Hi. apply Hchar in Hi as ([_ Hlt] & Hown & Hlive).
  apply Z.ltb_lt in Hlt.
  rewrite getFile_eq, Hlt, Hlive. cbn [negb].
  unfold may_read. by rewrite (bool_decide_eq_true_2 _ Hown).
Qed.

(** In the scenario alice's listing after the delete is [1]. *)
Lemma own_listing_is_readable_witness :
  ∃ ids,
    getMyFiles (Scenario.as_ Scenario.alice)
      (run (constructor Scenario.admin) Scenario.then_delete) =
      Success ids (run (constructor Scenario.admin) Scenario.then_delete) []
    ∧ StronglySorted Z.lt ids.
Proof.
  destruct (own_listing_is_readable Scenario.admin Scenario.then_delete
              (Scenario.as_ Scenario.alice)) as (ids & H1 & H2 & _).
  exists ids. by split.
Defined.

(** ** Granting and revoking access *)

Lemma step_of_success tx env s r s' l :
  call tx env s = Success r s' l → step s (env, tx) = s'.
Proof. unfold step. cbn [fst snd]. by intros ->. Qed.

Lemma step_share_by_owner fileId r env s :
  fileId < fileIdCounter s →
  File.owner (file_at s fileId) = msg_sender env →
  File.isDeleted (file_at s fileId) = false →
  r ≠ 0 → r ≠ msg_sender env →
  step s (env, TxShareFile fileId r) =
    regranted fileId ({[r]} ∪ File.sharedWith (file_at s fileId)) s.
Proof.
  intros Hlt Hown Hlive H0 Hself.
  eapply step_of_success. cbn [call]. unfold_contract.
  rewrite shareFile_by_owner by done.
  by rewrite (bool_decide_eq_false_2 _ H0), (bool_decide_eq_false_2 _ Hself).
Qed.

Lemma step_revoke_by_owner fileId r env s :
  fileId < fileIdCounter s →
  File.owner (file_at s fileId) = msg_sender env →
  File.isDeleted (file_at s fileId) = false →
  step s (env, TxRevokeAccess fileId r) =
    regranted fileId (File.sharedWith (file_at s fileId) ∖ {[r]}) s.
Proof.
  intros Hlt Hown Hlive.
  eapply step_of_success. cbn [call]. unfold_contract.
  by rewrite revokeAccess_by_owner by done.
Qed.

Lemma hasFileAccess_regranted fileId g user env s :
  fileId < fileIdCounter s →
  File.isDeleted (file_at s fileId) = false →
  hasFileAccess fileId user env (regranted fileId g s) =
    Success (bool_decide (File.owner (file_at s fileId) = user)
             || File.isPublic (file_at s fileId)
             || bool_decide (user ∈ g))
      (regranted fileId g s) [].
Proof.
  intros Hlt Hlive. apply Z.ltb_lt in Hlt.
  rewrite hasFileAccess_eq, file_at_regranted, decide_True by done.
  cbn [regranted with_files fileIdCounter File.set_sharedWith File.isDeleted].
  by rewrite Hlt, Hlive.
Qed.

(** X11. When the owner of a live record shares it with a valid recipient,
    [hasFileAccess] turns true for that recipient; when the owner revokes a
    recipient, it stays true for them only if they are the owner or the
    record is public. Either way the answer for every other user and every
    other record is what it was before. *)
Theorem share_and_revoke_move_one_grant
    (fileId r : Z) (env : Env) (s : State) :
  fileId < fileIdCounter s →
  File.owner (file_at s fileId) = msg_sender env →
  File.isDeleted (file_at s fileId) = false →
  (r ≠ 0 → r ≠ msg_sender env →
     ∀ e,
       hasFileAccess fileId r e (step s (env, TxShareFile fileId r)) =
         Success true (step s (env, TxShareFile fileId r)) []
       ∧ (∀ u, u ≠ r →
            hasFileAccess fileId u e (step s (env, TxShareFile fileId r)) =
              Success (may_read (file_at s fileId) u)
                (step s (env, TxShareFile fileId r)) [])
       ∧ (∀ j, j ≠ fileId →
            file_at (step s (env, TxShareFile fileId r)) j = file_at s j))
  ∧ (∀ e,
       hasFileAccess fileId r e (step s (env, TxRevokeAccess fileId r)) =
         Success (bool_decide (File.owner (file_at s fileId) = r)
                  || File.isPublic (file_at s fileId))
           (step s (env, TxRevokeAccess fileId r)) []
       ∧ (∀ u, u ≠ r →
            hasFileAccess fileId u e (step s (env, TxRevokeAccess fileId r)) =
              Success (may_read (file_at s fileId) u)
                (step s (env, TxRevokeAccess fileId r)) [])
       ∧ (∀ j, j ≠ fileId →
            file_at (step s (env, TxRevokeAccess fileId r)) j = file_at s j)).
Proof.
  intros Hlt Hown Hlive. split.
  - intros H0 Hself e. rewrite step_share_by_owner by done.
    split; [|split].
    + rewrite hasFileAccess_regranted by done.
      rewrite (bool_decide_eq_true_2 (r ∈ _)) by apply grants_share_in.
      by rewrite orb_true_r.
    + intros u Hu. rewrite hasFileAccess_regranted by done.
      unfold may_read. do 2 f_equal. apply bool_decide_ext.
      rewrite elem_of_union, elem_of_singleton. tauto.
    + intros j Hj. rewrite file_at_regranted. by rewrite decide_False.
  - intros e. rewrite step_revoke_by_owner by done.
    split; [|split].
    + rewrite hasFileAccess_regranted by done.
      rewrite (bool_decide_eq_false_2 (r ∈ _)) by apply grants_revoke_gone.
      by rewrite orb_false_r.
    + intros u Hu. rewrite hasFileAccess_regranted by done.
      unfold may_read. do 2 f_equal. apply bool_decide_ext.
      rewrite elem_of_difference, elem_of_singleton. tauto.
    + intros j Hj. rewrite file_at_regranted. by rewrite decide_False.
Qed.

(** In the scenario, bob loses access to the private file 1 when alice
    revokes him. *)
Lemma share_and_revoke_move_one_grant_witness :
  hasFileAccess 1 Scenario.bob (Scenario.as_ Scenario.bob)
    (step Scenario.shared
       (Scenario.as_ Scenario.alice, TxRevokeAccess 1 Scenario.bob)) =
    Success
      (bool_decide (File.owner (file_at Scenario.shared 1) = Scenario.bob)
       || File.isPublic (file_at Scenario.shared 1))
      (step Scenario.shared
         (Scenario.as_ Scenario.alice, TxRevokeAccess 1 Scenario.bob)) [].
Proof.
  refine (proj1 (proj2 (share_and_revoke_move_one_grant 1 Scenario.bob
            (Scenario.as_ Scenario.alice) Scenario.shared _ _ _)
          (Scenario.as_ Scenario.bob))).
  - vm_compute. reflexivity.
  - vm_compute. reflexivity.
  - vm_compute. reflexivity.
Defined.

(** ** When an upload goes through *)

(** X12. [uploadFile] succeeds exactly when the fee fits in a [uint256],
    the payment covers it, the id counter can still be incremented and,
    if a refund is due, the contract can pay it and the caller accepts
    it. A fee that overflows panics with 0x11 whatever is paid, and so
    does an exhausted counter once the payment is sufficient. *)
Theorem uploadFile_succeeds_iff
    (n t : string) (sz : Z) (h d : string) (p : bool) (v : Z)
    (env : Env) (s : State) :
  ((∃ i s' l, uploadFile n t sz h d p v env s = Success i s' l) ↔
     sz * storageFeePerByte s ≤ MAX_UINT256
     ∧ sz * storageFeePerByte s ≤ v
     ∧ fileIdCounter s + 1 ≤ MAX_UINT256
     ∧ (sz * storageFeePerByte s < v →
          v - sz * storageFeePerByte s ≤ balance s + v
          ∧ accepts env (msg_sender env) = true))
  ∧ (MAX_UINT256 < sz * storageFeePerByte s →
       uploadFile n t sz h d p v env s = Failed (Panic 0x11))
  ∧ (sz * storageFeePerByte s ≤ MAX_UINT256 →
     sz * storageFeePerByte s ≤ v →
     MAX_UINT256 < fileIdCounter s + 1 →
       uploadFile n t sz h d p v env s = Failed (Panic 0x11)).
Proof.
  rewrite uploadFile_eq.
  destruct (sz * storageFeePerByte s <=? MAX_UINT256) eqn:Hfit;
    [apply Z.leb_le in Hfit|apply Z.leb_gt in Hfit].
  2: { split; [|split]; [|done|lia]. split; [by intros (?&?&?&?)|lia]. }
  destruct (sz * storageFeePerByte s <=? v) eqn:Hpay;
    [apply Z.leb_le in Hpay|apply Z.leb_gt in Hpay].
  2: { split; [|split]; [|lia|lia]. split; [by intros (?&?&?&?)|lia]. }
  destruct (fileIdCounter s + 1 <=? MAX_UINT256) eqn:Hroom;
    [apply Z.leb_le in Hroom|apply Z.leb_gt in Hroom].
  2: { split; [|split]; [|lia|done]. split; [by intros (?&?&?&?)|lia]. }
  split; [|split; lia].
  destruct (sz * storageFeePerByte s <? v) eqn:Hover;
    [apply Z.ltb_lt in Hover|apply Z.ltb_ge in Hover].
  - destruct ((v - sz * storageFeePerByte s <=? balance s + v)
              && accepts env (msg_sender env)) eqn:Hrefund.
    + apply andb_true_iff in Hrefund as [Hb Ha]. apply Z.leb_le in Hb.
      split; [|by eauto]. intros _. done.
    + split; [by intros (?&?&?&?)|].
      intros (_ & _ & _ & Hr). destruct (Hr Hover) as [Hb Ha].
      apply Z.leb_le in Hb. by rewrite Hb, Ha in Hrefund.
  - split; [|by eauto]. intros _. repeat split; try done; lia.
Qed.

(** In the scenario the exactly paid first upload goes through. *)
Lemma uploadFile_succeeds_iff_witness :
  ∃ i s' l,
    uploadFile "a.txt" "text/plain" 1000 "QmA" "" true 100000
      (Scenario.as_ Scenario.alice) Scenario.priced = Success i s' l.
Proof.
  refine (proj2 (proj1 (uploadFile_succeeds_iff
            "a.txt" "text/plain" 1000 "QmA" "" true 100000
            (Scenario.as_ Scenario.alice) Scenario.priced)) _).
  split; [vm_compute; discriminate|].
  split; [vm_compute; discriminate|].
  split; [vm_compute; discriminate|].
  intros H. exfalso. vm_compute in H. discriminate.
Defined.

(** ** Withdrawing *)

(** X13. A successful [withdrawFunds] sends out exactly the balance,
    leaves the balance at zero and every other part of the state as it
    was; a withdrawal right after it fails, with "No funds available to
    withdraw" for the owner. *)
Theorem withdrawFunds_then_empty
    (env env' : Env) (s s' : State) (l : list Effect) :
  withdrawFunds env s = Success tt s' l →
  s' = with_balance 0 s
  ∧ sent_total l = balance s
  ∧ 0 < balance s
  ∧ withdrawFunds env' s' =
      Failed (if bool_decide (_owner s = msg_sender env')
              then Revert "No funds available to withdraw"
              else OwnableUnauthorizedAccount (msg_sender env')).
Proof.
  intros H. rewrite withdrawFunds_eq in H.
  destruct (bool_decide (_owner s = msg_sender env)); [|done].
  destruct (0 <? balance s) eqn:Hpos; [|done].
  destruct ((balance s <=? balance s) && accepts env (_owner s)); [|done].
  simplify_eq.
  rewrite Z.sub_diag. split; [done|]. split; [cbn; lia|].
  split; [by apply Z.ltb_lt|].
  rewrite withdrawFunds_eq. cbn [with_balance _owner balance].
  by case_bool_decide.
Qed.

(** In the scenario the deployer withdraws 200000 wei and cannot withdraw
    again. *)
Lemma withdrawFunds_then_empty_witness :
  withdrawFunds (Scenario.as_ Scenario.admin)
    (with_balance 0 Scenario.stocked) =
    Failed (if bool_decide (_owner Scenario.stocked
                            = msg_sender (Scenario.as_ Scenario.admin))
            then Revert "No funds available to withdraw"
            else OwnableUnauthorizedAccount
                   (msg_sender (Scenario.as_ Scenario.admin))).
Proof.
  pose proof (withdrawFunds_then_empty (Scenario.as_ Scenario.admin)
    (Scenario.as_ Scenario.admin) Scenario.stocked
    (with_balance 0 Scenario.stocked)
    [Sent Scenario.admin 200000; Emit (EtherWithdrawn Scenario.admin 200000)])
    as H.
  refine (proj2 (proj2 (proj2 (H _)))).
  vm_compute. reflexivity.
Defined.

(** ** Quoting the fee, then paying it *)

(** X14. Paying exactly what [calculateStorageFee] quotes is enough in the
    state of the quote: the upload succeeds whoever sends it, keeps the
    whole payment and sends no refund. If the owner raises the rate after
    the quote, the same payment for a non-empty file is rejected as
    insufficient. *)
Theorem quote_then_pay
    (n t : string) (sz : Z) (h d : string) (p : bool)
    (env env' : Env) (s : State) (fee : Z) :
  calculateStorageFee sz env s = Success fee s [] →
  fileIdCounter s + 1 ≤ MAX_UINT256 →
  uploadFile n t sz h d p fee env' s =
    Success (fileIdCounter s)
      (uploaded (new_file n t sz h d p env' s) (balance s + fee) s)
      [Emit (FileUploaded (fileIdCounter s) n (msg_sender env') h)]
  ∧ (∀ adm newRate,
       msg_sender adm = _owner s →
       storageFeePerByte s < newRate → 0 < sz →
       sz * newRate ≤ MAX_UINT256 →
       uploadFile n t sz h d p fee env'
         (step s (adm, TxUpdateStorageFee newRate)) =
         Failed (Revert "Insufficient Ether sent to cover storage fees")).
Proof.
  rewrite calculateStorageFee_eq.
  destruct (sz * storageFeePerByte s <=? MAX_UINT256) eqn:Hfit; [|done].
  intros [= <-] Hroom. split.
  - rewrite uploadFile_eq, Hfit, Z.leb_refl, Z.ltb_irrefl.
    by rewrite (proj2 (Z.leb_le _ _) Hroom).
  - intros adm newRate Hadm Hup Hsz Hfit'.
    assert (step s (adm, TxUpdateStorageFee newRate)
            = with_storageFeePerByte newRate s) as ->.
    { eapply step_of_success. cbn [call]. unfold_contract.
      rewrite updateStorageFee_eq.
      by rewrite bool_decide_eq_true_2 by done. }
    rewrite uploadFile_eq. cbn [with_storageFeePerByte storageFeePerByte].
    rewrite (proj2 (Z.leb_le _ _) Hfit').
    by rewrite (proj2 (Z.leb_gt _ _)) by nia.
Qed.

(** In the scenario the first upload pays the quoted 100000 wei. *)
Lemma quote_then_pay_witness :
  uploadFile "a.txt" "text/plain" 1000 "QmA" "" true 100000
    (Scenario.as_ Scenario.alice) Scenario.priced =
    Success (fileIdCounter Scenario.priced)
      (uploaded
         (new_file "a.txt" "text/plain" 1000 "QmA" "" true
            (Scenario.as_ Scenario.alice) Scenario.priced)
         (balance Scenario.priced + 100000) Scenario.priced)
      [Emit (FileUploaded (fileIdCounter Scenario.priced) "a.txt"
               (msg_sender (Scenario.as_ Scenario.alice)) "QmA")].
Proof.
  refine (proj1 (quote_then_pay "a.txt" "text/plain" 1000 "QmA" "" true
            (Scenario.as_ Scenario.bob) (Scenario.as_ Scenario.alice)
            Scenario.priced 100000 _ _)).
  - vm_compute. reflexivity.
  - vm_compute. discriminate.
Defined.

(** ** Solvency *)

Lemma solvent_performs s env tx s' :
  performs s env tx s' → nonneg_tx tx →
  0 ≤ balance s ∧ 0 ≤ storageFeePerByte s →
  0 ≤ balance s' ∧ 0 ≤ storageFeePerByte s'.
Proof.
  destruct 1; cbn; intros Hnn [Hb Hr]; try done.
  split; [nia|done].
Qed.

Lemma solvent_run cs : ∀ s,
  Forall (λ c, nonneg_tx c.2) cs →
  0 ≤ balance s ∧ 0 ≤ storageFeePerByte s →
  0 ≤ balance (run s cs) ∧ 0 ≤ storageFeePerByte (run s cs).
Proof.
  induction cs as [|[env tx] cs IH]; intros s Hcs Hs; [done|].
  apply Forall_cons in Hcs as [Hc Hcs].
  cbn [run foldl]. fold (run (step s (env, tx)) cs).
  apply IH; [done|]. eapply solvent_performs; [apply step_performs|done..].
Qed.

(** X15. From deployment on, with transactions whose sizes, payments and
    rates are not negative, the balance and the rate are never negative,
    and the contract can always pay a refund that is due: an [uploadFile]
    fails with a failed transfer only when the caller does not accept the
    refund. *)
Theorem contract_stays_solvent
    (deployer : Z) (cs : list (Env * Tx))
    (n t : string) (sz : Z) (h d : string) (p : bool) (v : Z) (env : Env) :
  Forall (λ c, nonneg_tx c.2) cs → 0 ≤ sz →
  let s := run (constructor deployer) cs in
  0 ≤ balance s
  ∧ 0 ≤ storageFeePerByte s
  ∧ (uploadFile n t sz h d p v env s = Failed TransferFailed →
     accepts env (msg_sender env) = false).
Proof.
  intros Hcs Hsz s.
  destruct (solvent_run cs (constructor deployer) Hcs) as [Hb Hr];
    [cbn; lia|]. fold s in Hb, Hr.
  split; [done|]. split; [done|].
  rewrite uploadFile_eq.
  repeat (case_cond; cbv beta iota); intros ?; simplify_eq.
  apply andb_false_iff in Heqb3 as [Hc|Ha]; [|done].
  apply Z.leb_gt in Hc. nia.
Qed.

(** In the scenario the balance after the two uploads is not negative. *)
Lemma contract_stays_solvent_witness :
  0 ≤ balance (run (constructor Scenario.admin) Scenario.two_uploads).
Proof.
  refine (proj1 (contract_stays_solvent Scenario.admin Scenario.two_uploads
            "" "" 0 "" "" false 0 (Scenario.as_ Scenario.alice) _ _)).
  - repeat constructor; vm_compute; discriminate.
  - lia.
Defined.
